(** * google-photos-backup: the traversal-and-download pipeline of [src/index.ts]

    A shallow embedding of the backup loop ([start]), of the per-photo step
    ([downloadPhoto]) and of the small pure helpers ([clean], [getProgress],
    [saveProgress]), together with the properties the specification states
    about them.

    Conventions.
    - JavaScript strings are byte strings (UTF-8); the en dash of the
      accessibility-label pattern is its three-byte encoding.
    - The file system is a finite map from paths to files.
    - Every call to an external collaborator (browser, exiftool, fs, process)
      is recorded, in program order, in the [trace] of the [World]. *)

From Stdlib Require Import ZArith Ascii String.
From stdpp Require Import base option list gmap strings pretty.

Local Open Scope string_scope.
Local Open Scope Z_scope.
Local Open Scope list_scope.

(** ** JavaScript values that the code branches on *)

(** A number-valued expression of the source: [undefined] (a missing
    property, or [?.] on a missing object), [NaN], or an integer. *)
Inductive JsNum : Type :=
| undefined
| NaN
| Num (z : Z).

#[global] Instance JsNum_eq_dec : EqDecision JsNum.
Proof. solve_decision. Defined.

(** Truthiness, as used by [||] and [if (...)]. *)
Definition truthy (v : JsNum) : bool :=
  match v with
  | Num z => negb (z =? 0)
  | _ => false
  end.

(** [a || b] *)
Definition js_or (a b : JsNum) : JsNum := if truthy a then a else b.

(** [a === z] against a number literal. *)
Definition js_seq (a : JsNum) (z : Z) : bool :=
  match a with
  | Num x => x =? z
  | _ => false
  end.

(** [a + 1] *)
Definition js_succ (a : JsNum) : JsNum :=
  match a with
  | Num x => Num (x + 1)
  | _ => NaN
  end.

(** [`${a}`] *)
Definition js_template (a : JsNum) : string :=
  match a with
  | Num x => pretty x
  | NaN => "NaN"
  | undefined => "undefined"
  end.

(** Truthiness of a string that may be missing ([undefined]/[null]). *)
Definition truthy_str (s : option string) : bool :=
  match s with
  | Some s => negb (String.eqb s "")
  | None => false
  end.

(** ** [clean]: URL canonicalisation

    [link.replace(/\/u\/\d+\//, '/')]: the first (leftmost) account-index
    segment is replaced by a single slash. *)

Definition is_digit (c : ascii) : bool :=
  (48 <=? nat_of_ascii c)%nat && (nat_of_ascii c <=? 57)%nat.

(** [\d+\/] with the greedy digit run; [seen] records that one digit has been
    read. The result is the text after the closing slash. *)
Fixpoint digits_then_slash (seen : bool) (s : string) : option string :=
  match s with
  | String c s' =>
      if is_digit c then digits_then_slash true s'
      else if seen && Ascii.eqb c "/" then Some s' else None
  | EmptyString => None
  end.

(** [s] without its prefix [p], when it has it. *)
Fixpoint strip_prefix (p s : string) : option string :=
  match p, s with
  | EmptyString, _ => Some s
  | String a p', String b s' =>
      if Ascii.eqb a b then strip_prefix p' s' else None
  | String _ _, EmptyString => None
  end.

(** The pattern anchored at the head of [s]. *)
Definition account_segment_at (s : string) : option string :=
  match strip_prefix "/u/" s with
  | Some s' => digits_then_slash false s'
  | None => None
  end.

Fixpoint clean (link : string) : string :=
  match account_segment_at link with
  | Some rest => String "/" rest
  | None =>
      match link with
      | String c s' => String c (clean s')
      | EmptyString => EmptyString
      end
  end.

(** Whether the pattern matches anywhere in [s]. *)
Fixpoint has_account_segment (s : string) : bool :=
  match account_segment_at s with
  | Some _ => true
  | None =>
      match s with
      | String _ s' => has_account_segment s'
      | EmptyString => false
      end
  end.

(** ** [path.join] (POSIX) *)

Module path.

(** [s.split(sep)] *)
Fixpoint split (sep : ascii) (s : string) : list string :=
  match s with
  | EmptyString => [EmptyString]
  | String c s' =>
      if Ascii.eqb c sep then EmptyString :: split sep s'
      else match split sep s' with
           | seg :: segs => String c seg :: segs
           | [] => [String c EmptyString]
           end
  end.

(** One segment of [normalizeString]; [res] is the stack of kept segments,
    innermost first. *)
Definition normalize_step (allowAboveRoot : bool)
    (res : list string) (seg : string) : list string :=
  if String.eqb seg "" || String.eqb seg "." then res
  else if String.eqb seg ".." then
    match res with
    | top :: below =>
        if String.eqb top ".." then
          (if allowAboveRoot then seg :: res else res)
        else below
    | [] => if allowAboveRoot then [seg] else []
    end
  else seg :: res.

Definition normalizeString (p : string) (allowAboveRoot : bool) : string :=
  String.concat "/"
    (rev (fold_left (normalize_step allowAboveRoot) (split "/" p) [])).

Definition last_char (s : string) : option ascii :=
  String.get (Nat.pred (String.length s)) s.

Definition normalize (p : string) : string :=
  if String.eqb p "" then "."
  else
    let isAbsolute := String.prefix "/" p in
    let trailingSeparator :=
      bool_decide (last_char p = Some "/"%char) in
    let q := normalizeString p (negb isAbsolute) in
    if String.eqb q "" then
      (if isAbsolute then "/" else if trailingSeparator then "./" else ".")
    else
      let q := if trailingSeparator then q +:+ "/" else q in
      if isAbsolute then "/" +:+ q else q.

Definition join (paths : list string) : string :=
  let joined :=
    String.concat "/" (filter (λ s, s ≠ EmptyString) paths) in
  if String.eqb joined "" then "." else normalize joined.

End path.

(** ** Data model *)

(** [ExifDateTime] of exiftool-vendored, restricted to the two properties
    the code reads. *)
Record ExifDateTime : Type := { year : JsNum; month : JsNum }.

(** [metadata.DateTimeOriginal]: exiftool-vendored yields an [ExifDateTime],
    or the raw string when the tag does not parse; the source casts it
    unchecked. *)
Inductive ExifTag : Type :=
| TagDateTime (d : ExifDateTime)
| TagString (raw : string).

Record File : Type := { bytes : string; DateTimeOriginal : option ExifTag }.

(** A [Date] object: its time value, with the local-time fields read by
    [getFullYear] and [getMonth], or an invalid date. *)
Inductive JsDate : Type :=
| InvalidDate
| ValidDate (fullYear monthIndex time : Z).

#[global] Instance JsDate_eq_dec : EqDecision JsDate.
Proof. solve_decision. Defined.

Definition getFullYear (d : JsDate) : JsNum :=
  match d with ValidDate y _ _ => Num y | InvalidDate => NaN end.

Definition getMonth (d : JsDate) : JsNum :=
  match d with ValidDate _ m _ => Num m | InvalidDate => NaN end.

(** The Playwright [Download] of the current photo. *)
Record Download : Type := {
  dl_path : option string;          (* download.path() *)
  dl_suggestedFilename : string;    (* download.suggestedFilename() *)
  dl_file : File                    (* what the browser stored at that path *)
}.

(** What the code can observe of the photo page the browser is showing. *)
Record PhotoPage : Type := {
  url : string;                 (* page.url() *)
  host : string;                (* the host of that URL, as waitForURL sees it *)
  prev_arrows : list bool;      (* elements of class 'SxgK2b OQEhnd', in document
                                   order: offsetParent !== null *)
  download : option Download;   (* the download that Shift+D triggers, if any *)
  html : string                 (* (await page.request.get(page.url())).text() *)
}.

(** The browser session as the run meets it. *)
Record Browser : Type := {
  home : string;                      (* page.url() after goto(mainGooglePhotosUrl) *)
  activeElement_href : option string; (* document.activeElement?.href *)
  photoAt : string → PhotoPage;       (* the page shown after page.goto(u) *)
  navigations : list PhotoPage        (* successive page states after the clicks *)
}.

(** The JavaScript engine and the libraries, where their behaviour is not
    fixed by the source. *)
Record Engine : Type := {
  URL_ok : string → bool;             (* [new URL(s)] does not throw *)
  new_Date : string → JsDate;         (* [new Date(s)] *)
  exif_write : File → JsDate → option File;
                                      (* exiftool.write of DateTimeOriginal;
                                         [None] when the call rejects *)
  randomNumber : Z                    (* Math.floor(Math.random() * 1000000) *)
}.

(** ** The accessibility-label pattern

    [/aria-label=Q(?:Photo|Video) ((?:[–-]) ([^Q–-]+))+Q/], where Q stands
    for the double quote. The character class excludes the quote and both
    dashes, so the greedy run of group 2 stops exactly where the next group or
    the closing quote must start: the match is found without backtracking. *)

Definition dquote : ascii := "034"%char.

(** U+2013 in UTF-8. *)
Definition en_dash : string :=
  String "226" (String "128" (String "147" EmptyString)).

(** [(?:[–-])]: a hyphen, or the three bytes of an en dash. *)
Definition strip_dash (s : string) : option string :=
  match strip_prefix "-" s with
  | Some s' => Some s'
  | None => strip_prefix en_dash s
  end.

Definition at_dash (s : string) : bool :=
  match strip_dash s with Some _ => true | None => false end.

(** Group 2, greedy: the run of bytes up to the next quote or dash, and what
    follows it. *)
Fixpoint date_text (s : string) : string * string :=
  match s with
  | EmptyString => (EmptyString, EmptyString)
  | String c s' =>
      if Ascii.eqb c dquote || at_dash s then (EmptyString, s)
      else let '(t, rest) := date_text s' in (String c t, rest)
  end.

(** The repeated group 1 and the closing quote: the text captured by the
    last iteration of group 2. Every iteration consumes at least three bytes,
    so a [fuel] of the length of [s] is never used up ([date_groups_fuel]). *)
Fixpoint date_groups (fuel : nat) (s : string) : option string :=
  match fuel with
  | O => None
  | S fuel' =>
      s1 ← strip_dash s;
      s2 ← strip_prefix " " s1;
      let '(text, rest) := date_text s2 in
      if String.eqb text "" then None
      else match rest with
           | String c _ =>
               if Ascii.eqb c dquote then Some text else date_groups fuel' rest
           | EmptyString => None
           end
  end.

(** The pattern anchored at the head of [s]. *)
Definition aria_label_at (s : string) : option string :=
  s1 ← strip_prefix ("aria-label=" +:+ String dquote "") s;
  s2 ← match strip_prefix "Photo" s1 with
       | Some r => Some r
       | None => strip_prefix "Video" s1
       end;
  s3 ← strip_prefix " " s2;
  date_groups (String.length s3) s3.

(** [regex.exec(html)?.pop()]: the last capture of the leftmost match. *)
Fixpoint aria_label_exec (html : string) : option string :=
  match aria_label_at html with
  | Some lastMatch => Some lastMatch
  | None =>
      match html with
      | String _ html' => aria_label_exec html'
      | EmptyString => None
      end
  end.

(** ** Effects *)

Inductive Event : Type :=
| WriteFile (p content : string)
| Launch (sessionDirectory : string) (headless : bool)
| Goto (u : string)
| KeyDown (key : string)
| KeyPress (key : string)
| ExifRead (p : string)
| RequestGet (u : string)
| ExifWrite (p : string) (d : JsDate)
| MoveFile (source destination : string) (overwrite : option bool) (ok : bool)
| Click (index : nat)
| BrowserClose
| ExiftoolEnd
| ProcessExit (code : Z).

#[global] Instance Event_eq_dec : EqDecision Event.
Proof. solve_decision. Defined.

Inductive Error : Type :=
| ENOENT (p : string)
| EmptyFile                         (* new Error("empty file") *)
| DestinationExists (p : string)    (* moveFile, overwrite: false *)
| InvalidURL (s : string)           (* new URL(s) *)
| TimeoutError                      (* a Playwright wait that never resolves *)
| WriteRejected (p : string).       (* exiftool.write *)

Record World : Type := { fs : gmap string File; trace : list Event }.

(** How an [async] body ends: it returns, the process exits, or the promise
    rejects. *)
Inductive Completion (A : Type) : Type :=
| Normal (a : A)
| Exit (code : Z)
| Throw (e : Error).
Arguments Normal {A} a.
Arguments Exit {A} code.
Arguments Throw {A} e.

Definition Async (A : Type) : Type := World → Completion A * World.

Definition ret {A} (a : A) : Async A := λ w, (Normal a, w).

(** Sequencing of awaited calls: an exit or a rejection ends the body. *)
Definition bind {A B} (c : Async A) (k : A → Async B) : Async B :=
  λ w, match c w with
       | (Normal a, w') => k a w'
       | (Exit code, w') => (Exit code, w')
       | (Throw e, w') => (Throw e, w')
       end.

Declare Scope async_scope.
Delimit Scope async_scope with async.
Bind Scope async_scope with Async.
Notation "x ← c ; k" := (bind c (λ x, k))
  (at level 20, c at level 100, k at level 200, only parsing) : async_scope.
Notation "' x ← c ; k" := (bind c (λ x, k))
  (at level 20, x pattern, c at level 100, k at level 200,
   only parsing) : async_scope.
Notation "c ;; k" := (bind c (λ _, k))
  (at level 100, k at level 200, only parsing, right associativity)
  : async_scope.
Local Open Scope async_scope.

Definition throw {A} (e : Error) : Async A := λ w, (Throw e, w).

(** [try { c } catch (e) { h e }] *)
Definition try_catch {A} (c : Async A) (h : Error → Async A) : Async A :=
  λ w, match c w with
       | (Throw e, w') => h e w'
       | r => r
       end.

(** The world after the events [t]. *)
Definition log (w : World) (t : list Event) : World :=
  {| fs := fs w; trace := trace w ++ t |}.

Definition emit (e : Event) : Async unit :=
  λ w, (Normal tt, log w [e]).

(** [process.exit(code)] never returns. *)
Definition process_exit {A} (code : Z) : Async A :=
  λ w, (Exit code, log w [ProcessExit code]).

Definition pathExists (p : string) (m : gmap string File) : bool :=
  match m !! p with Some _ => true | None => false end.

(** [fsP.readFile(p, 'utf-8')] *)
Definition readFile (p : string) : Async string :=
  λ w, match fs w !! p with
       | Some f => (Normal (bytes f), w)
       | None => (Throw (ENOENT p), w)
       end.

(** [fsP.writeFile(p, content, 'utf-8')] *)
Definition writeFile (p content : string) : Async unit :=
  λ w, (Normal tt,
        {| fs := <[p := {| bytes := content; DateTimeOriginal := None |}]> (fs w);
           trace := trace w ++ [WriteFile p content] |}).

(** [mkdir(dir, { recursive: true })]: directories are implicit in the map,
    so the call has nothing to create; the empty path is rejected
    ([ENOENT: no such file or directory, mkdir '']). *)
Definition mkdir (dir : string) : Async unit :=
  if String.eqb dir "" then throw (ENOENT dir) else ret tt.

(** [moveFile(source, destination, { overwrite })] of @npmcli/fs (and of
    move-file): [overwrite] defaults to [true] when the option is omitted; with
    [overwrite: false] an existing destination makes the call reject before
    anything is touched. *)
Definition moveFile (source destination : string) (overwrite : option bool)
  : Async unit :=
  λ w,
    let failed := log w [MoveFile source destination overwrite false] in
    if negb (default true overwrite) && pathExists destination (fs w) then
      (Throw (DestinationExists destination), failed)
    else
      match fs w !! source with
      | None => (Throw (ENOENT source), failed)
      | Some f =>
          (Normal tt,
           {| fs := <[destination := f]> (delete source (fs w));
              trace := trace w ++ [MoveFile source destination overwrite true] |})
      end.

(** ** Checkpoint store *)

Definition lastdone (directory : string) : string :=
  path.join [directory; ".lastdone"].

Definition getProgress (downloadPath : string) : Async string :=
  lastDone ← readFile (lastdone downloadPath);
  if String.eqb lastDone "" then throw EmptyFile else ret lastDone.

Definition saveProgress (photoDirectory url : string) : Async unit :=
  mkdir photoDirectory ;;
  writeFile (lastdone photoDirectory) url.

(** ** [downloadPhoto] *)

Record DownloadOptions : Type := {
  o_photoDirectory : string;
  o_overwrite : option bool;               (* = false *)
  o_writeScrapedExif : option bool;        (* = false *)
  o_flatDirectoryStructure : option bool   (* = false *)
}.

(** [page.waitForEvent('download')], Shift+D, [await downloadPromise]: the
    browser stores the asset at the download's path. *)
Definition shiftD (page : PhotoPage) : Async Download :=
  emit (KeyDown "Shift") ;;
  emit (KeyPress "KeyD") ;;
  match download page with
  | None => throw TimeoutError
  | Some d =>
      λ w, (Normal d,
            {| fs := match dl_path d with
                     | Some p => <[p := dl_file d]> (fs w)
                     | None => fs w
                     end;
               trace := trace w |})
  end.

(** [exiftool.read(p)] *)
Definition exiftool_read (p : string) : Async File :=
  emit (ExifRead p) ;;
  λ w, match fs w !! p with
       | Some f => (Normal f, w)
       | None => (Throw (ENOENT p), w)
       end.

(** [exiftool.write(p, { DateTimeOriginal: ExifDateTime.fromMillis(date.getTime()) })] *)
Definition exiftool_write (E : Engine) (p : string) (date : JsDate) : Async unit :=
  emit (ExifWrite p date) ;;
  λ w, match fs w !! p with
       | None => (Throw (ENOENT p), w)
       | Some f =>
           match exif_write E f date with
           | Some f' =>
               (Normal tt, {| fs := <[p := f']> (fs w); trace := trace w |})
           | None => (Throw (WriteRejected p), w)
           end
       end.

(** [(await page.request.get(page.url())).text()] *)
Definition request_html (page : PhotoPage) : Async string :=
  emit (RequestGet (url page)) ;; ret (html page).

(** [dateTimeOriginal?.year || 1970] *)
Definition embedded_year (dateTimeOriginal : option ExifTag) : JsNum :=
  js_or (match dateTimeOriginal with
         | Some (TagDateTime d) => year d
         | _ => undefined
         end) (Num 1970).

(** [dateTimeOriginal?.month || 1] *)
Definition embedded_month (dateTimeOriginal : option ExifTag) : JsNum :=
  js_or (match dateTimeOriginal with
         | Some (TagDateTime d) => month d
         | _ => undefined
         end) (Num 1).

(** Lines 228-259: the values of [year] and [month] when the placement
    starts. *)
Definition capture_date (E : Engine) (page : PhotoPage)
    (writeScrapedExif : bool) (tempPath : string) : Async (JsNum * JsNum) :=
  metadata ← exiftool_read tempPath;
  let dateTimeOriginal := DateTimeOriginal metadata in
  let year := embedded_year dateTimeOriginal in
  let month := embedded_month dateTimeOriginal in
  if js_seq year 1970 && js_seq month 1 then
    html ← request_html page;
    let lastMatch := aria_label_exec html in
    if truthy_str lastMatch then
      let date := new_Date E (default "" lastMatch) in
      (if writeScrapedExif then exiftool_write E tempPath date else ret tt) ;;
      ret (getFullYear date, js_succ (getMonth date))
    else ret (year, month)
  else ret (year, month).

(** Lines 261-263. *)
Definition destDir (photoDirectory : string) (flatDirectoryStructure : bool)
    (year month : JsNum) (suggestedFilename : string) : string :=
  if flatDirectoryStructure then path.join [photoDirectory; suggestedFilename]
  else path.join [photoDirectory; js_template year; js_template month;
                  suggestedFilename].

Definition downloadPhoto (E : Engine) (page : PhotoPage) (o : DownloadOptions)
  : Async unit :=
  let photoDirectory := o_photoDirectory o in
  let overwrite := default false (o_overwrite o) in
  let writeScrapedExif := default false (o_writeScrapedExif o) in
  let flatDirectoryStructure := default false (o_flatDirectoryStructure o) in
  download ← shiftD page;
  let suggestedFilename := dl_suggestedFilename download in
  if negb (truthy_str (dl_path download)) then process_exit 1
  else
    let tempPath := default "" (dl_path download) in
    '(year, month) ← capture_date E page writeScrapedExif tempPath;
    let destDir :=
      destDir photoDirectory flatDirectoryStructure year month suggestedFilename in
    try_catch (moveFile tempPath destDir (Some overwrite))
              (λ error, ret tt).

(** ** [start] *)

Record Options : Type := {
  headless : bool;
  photoDirectory : string;
  sessionDirectory : string;
  initialPhotoUrl : option string;
  writeScrapedExif : bool;
  flatDirectoryStructure : bool
}.

Definition mainGooglePhotosUrl : string := "https://photos.google.com/".

Definition cleanup : Async unit :=
  emit BrowserClose ;; emit ExiftoolEnd.

Definition getLatestPhoto (B : Browser) : Async (option string) :=
  emit (KeyPress "ArrowRight") ;; ret (activeElement_href B).

(** The visibility scan of the callback given to [page.evaluate]. *)
Fixpoint isVisible (elements : list bool) : bool :=
  match elements with
  | [] => false
  | offsetParent_not_null :: rest =>
      if offsetParent_not_null then true else isVisible rest
  end.

(** The callback of lines 149-164: its return value and the index of the
    element whose [click()] it called, if any. *)
Definition click_previous (elements : list bool) : bool * option nat :=
  if negb (isVisible elements) then (false, None)
  else (true, Some 0%nat).

Definition evaluate_click (page : PhotoPage) : Async bool :=
  let '(clicked, target) := click_previous (prev_arrows page) in
  match target with
  | Some i => emit (Click i) ;; ret clicked
  | None => ret clicked
  end.

(** The options object of the call before the loop (lines 126-131). *)
Definition first_options (o : Options) : DownloadOptions :=
  {| o_photoDirectory := photoDirectory o;
     o_overwrite := Some true;
     o_writeScrapedExif := Some (writeScrapedExif o);
     o_flatDirectoryStructure := Some (flatDirectoryStructure o) |}.

(** The options object of the call inside the loop (lines 181-184):
    [overwrite] and [flatDirectoryStructure] are not passed. *)
Definition loop_options (o : Options) : DownloadOptions :=
  {| o_photoDirectory := photoDirectory o;
     o_overwrite := None;
     o_writeScrapedExif := Some (writeScrapedExif o);
     o_flatDirectoryStructure := None |}.

(** The predicate given to [page.waitForURL]. *)
Definition url_changed (currentUrl : string) (p : PhotoPage) : bool :=
  String.eqb (host p) "photos.google.com" && negb (String.eqb (url p) currentUrl).

(** The [while (true)] of lines 134-187, from the page the browser shows.
    [states] are the page states still to come; [page.waitForURL] resolves at
    the first one that satisfies its predicate and rejects when none does. *)
Fixpoint loop (E : Engine) (o : Options) (latestPhoto : string)
    (page : PhotoPage) (states : list PhotoPage) {struct states} : Async unit :=
  let currentUrl := url page in
  if String.eqb (clean currentUrl) (clean latestPhoto) then ret tt
  else
    clicked ← evaluate_click page;
    (if negb clicked then process_exit 1 else ret tt) ;;
    (fix waitForURL (pending : list PhotoPage) : Async unit :=
       match pending with
       | [] => throw TimeoutError
       | p :: rest =>
           if url_changed currentUrl p then
             downloadPhoto E p (loop_options o) ;;
             saveProgress (photoDirectory o) (url p) ;;
             loop E o latestPhoto p rest
           else waitForURL rest
       end) states.

(** Lines 74-188: the run once [startLink] is known. *)
Definition backup (E : Engine) (B : Browser) (o : Options) (startLink : string)
  : Async unit :=
  (if URL_ok E startLink then ret tt else throw (InvalidURL startLink)) ;;
  emit (Launch (sessionDirectory o) (headless o)) ;;
  emit (Goto mainGooglePhotosUrl) ;;
  let pageUrl := home B in
  if negb (String.eqb pageUrl mainGooglePhotosUrl) then
    cleanup ;; process_exit 1
  else
    latestPhoto ← getLatestPhoto B;
    if negb (truthy_str latestPhoto) then cleanup ;; process_exit 1
    else
      let latestPhoto := default "" latestPhoto in
      emit (Goto (clean startLink)) ;;
      let page := photoAt B (clean startLink) in
      downloadPhoto E page (first_options o) ;;
      loop E o latestPhoto page (navigations B) ;;
      cleanup.

Definition start (E : Engine) (B : Browser) (o : Options) : Async unit :=
  startLink ← try_catch (getProgress (photoDirectory o))
    (λ e,
       if truthy_str (initialPhotoUrl o) then
         let initialPhotoUrl := default "" (initialPhotoUrl o) in
         saveProgress (photoDirectory o) initialPhotoUrl ;;
         ret initialPhotoUrl
       else process_exit 1);
  backup E B o startLink.

(** ** The legacy variant of [downloadPhoto] (second half of the source) *)

Module Legacy.

(** [[\w\d_-]] *)
Definition is_word_char (c : ascii) : bool :=
  let n := nat_of_ascii c in
  ((48 <=? n) && (n <=? 57) || (65 <=? n) && (n <=? 90)
   || (97 <=? n) && (n <=? 122) || (n =? 95) || (n =? 45))%nat.

(** [[\w\d_-]+$]: a non-empty run of such characters up to the end. *)
Fixpoint ext_run (s : string) : bool :=
  match s with
  | EmptyString => false
  | String c EmptyString => is_word_char c
  | String c s' => is_word_char c && ext_run s'
  end.

(** [name.replace(/(\.[\w\d_-]+)$/i, `_${randomNumber}$1`)] *)
Fixpoint rename (randomNumber : Z) (name : string) : string :=
  match name with
  | EmptyString => EmptyString
  | String c s' =>
      if Ascii.eqb c "." && ext_run s' then
        "_" +:+ pretty randomNumber +:+ name
      else String c (rename randomNumber s')
  end.

(** Lines 467-496. *)
Definition capture_date (E : Engine) (page : PhotoPage)
    (writeScrapedExif : bool) (temp : string) : Async (JsNum * JsNum) :=
  metadata ← exiftool_read temp;
  let year := embedded_year (DateTimeOriginal metadata) in
  let month := embedded_month (DateTimeOriginal metadata) in
  if js_seq year 1970 && js_seq month 1 then
    html ← request_html page;
    match aria_label_exec html with
    | Some lastMatch =>
        let date := new_Date E lastMatch in
        (if writeScrapedExif then exiftool_write E temp date else ret tt) ;;
        ret (getFullYear date, js_succ (getMonth date))
    | None => ret (year, month)
    end
  else ret (year, month).

Definition downloadPhoto (E : Engine) (page : PhotoPage) (o : DownloadOptions)
  : Async unit :=
  let photoDirectory := o_photoDirectory o in
  let overwrite := default false (o_overwrite o) in
  let writeScrapedExif := default false (o_writeScrapedExif o) in
  let flatDirectoryStructure := default false (o_flatDirectoryStructure o) in
  download ← shiftD page;
  let temp := default "" (dl_path download) in
  let fileName := dl_suggestedFilename download in
  '(year, month) ← capture_date E page writeScrapedExif temp;
  let destDir :=
    destDir photoDirectory flatDirectoryStructure year month fileName in
  try_catch (moveFile temp destDir (Some overwrite))
    (λ error,
       let randomNumber := randomNumber E in
       let fileName := rename randomNumber (dl_suggestedFilename download) in
       moveFile temp
         (photoDirectory +:+ "/" +:+ js_template year +:+ "/"
          +:+ js_template month +:+ "/" +:+ fileName) None).

End Legacy.

(** ** Notions used in the properties *)

Definition init (files : gmap string File) : World :=
  {| fs := files; trace := [] |}.

Definition is_write (e : Event) : bool :=
  match e with WriteFile _ _ => true | _ => false end.

(** What the loop does next after a checkpoint write: the click that
    advances, or the end of the run. *)
Definition is_advance (e : Event) : bool :=
  match e with
  | Click _ | BrowserClose | ProcessExit _ => true
  | _ => false
  end.

(** [a] is the call of [moveFile], with [overwrite: false] and whatever its
    result, for the download of one of the [pages], and [b] writes the URL of
    that page to the checkpoint file of [dir]. *)
Definition moved_then_saved (dir : string) (pages : list PhotoPage)
    (a b : Event) : bool :=
  match a, b with
  | MoveFile source _ (Some false) _, WriteFile p content =>
      String.eqb p (lastdone dir)
      && existsb (λ page,
                    String.eqb (url page) content
                    && match download page with
                       | Some dl => bool_decide (dl_path dl = Some source)
                       | None => false
                       end) pages
  | _, _ => false
  end.

(** The order the loop keeps between two consecutive events; [K] relates a
    checkpoint write to the event before it. *)
Definition in_order (K : Event → Event → bool) (a b : Event) : bool :=
  implb (is_write b) (K a b) && implb (is_write a) (is_advance b).

Fixpoint chain (K : Event → Event → bool) (t : list Event) : bool :=
  match t with
  | a :: (b :: _) as t' => in_order K a b && chain K t'
  | _ => true
  end.

(** No checkpoint write among the events. *)
Definition quiet (t : list Event) : bool :=
  forallb (λ e, negb (is_write e)) t.

(** Whether the last event of [a] and the first event of [b] are in order. *)
Definition joins (K : Event → Event → bool) (a b : list Event) : bool :=
  match last a, head b with
  | Some x, Some y => in_order K x y
  | _, _ => true
  end.

Definition head_advance (t : list Event) : bool :=
  match t with
  | [] => true
  | e :: _ => is_advance e
  end.

Definition head_quiet (t : list Event) : Prop :=
  match head t with Some e => is_write e = false | None => True end.

(** A computation that only adds events other than checkpoint writes. *)
Definition silent {A} (c : Async A) : Prop :=
  ∀ w, ∃ q, trace (snd (c w)) = trace w ++ q ∧ quiet q = true.

(** The events of a computation keep checkpoint writes in order and do not
    start with one. *)
Definition orderly {A} (K : Event → Event → bool) (c : Async A) : Prop :=
  ∀ w, ∃ t, trace (snd (c w)) = trace w ++ t ∧ chain K t = true ∧ head_quiet t.

(** The events of the loop: checkpoint writes are in order, and the first
    event, if any, is the click that advances or the exit. *)
Definition advancing (K : Event → Event → bool) (c : Async unit) : Prop :=
  ∀ w, ∃ t, trace (snd (c w)) = trace w ++ t
            ∧ chain K t = true ∧ head_advance t = true.

(** The specification's ordering, on the trace of a run: a checkpoint write,
    other than a seeding write that opens the trace, comes directly after a
    move that succeeded. *)
Definition checkpoint_after_placement (t : list Event) : Prop :=
  ∀ i p c, t !! S i = Some (WriteFile p c) →
           ∃ s d ov, t !! i = Some (MoveFile s d ov true).

(** [page.waitForURL] alone: the state it resolves at and the states left. *)
Fixpoint waitForURL (currentUrl : string) (pending : list PhotoPage)
  : option (PhotoPage * list PhotoPage) :=
  match pending with
  | [] => None
  | p :: rest =>
      if url_changed currentUrl p then Some (p, rest)
      else waitForURL currentUrl rest
  end.

(** The specification's idempotence property, on the trace of a run: no
    download is triggered. *)
Definition no_download (t : list Event) : Prop :=
  ∀ e, e ∈ t → e ≠ KeyPress "KeyD".


(** Whether the accessibility-label pattern matches at one of the first [n]
    positions of [s]. *)
Fixpoint matches_before (n : nat) (s : string) : bool :=
  match n with
  | O => false
  | S n' =>
      match aria_label_at s with
      | Some _ => true
      | None =>
          match s with
          | String _ s' => matches_before n' s'
          | EmptyString => false
          end
      end
  end.

Definition all_digits (s : string) : bool :=
  forallb is_digit (list_ascii_of_string s).

(** The caption of the specification's example, as it stands in the markup. *)
Definition label_jan_5_2020 : string :=
  "aria-label=" +:+ String dquote "Photo - Jan 5, 2020" +:+ String dquote "".

(** ** Notions used in the further properties *)

(** A text that holds no quote, no hyphen and no en dash: at none of its
    positions does a quote stand or a dash start. *)
Fixpoint plain (s : string) : bool :=
  match s with
  | EmptyString => true
  | String c s' => negb (Ascii.eqb c dquote || at_dash s) && plain s'
  end.

(** U+202F, the narrow no-break space, in UTF-8: its first byte is that of the
    en dash. *)
Definition nnbsp : string :=
  String "226" (String "128" (String "175" EmptyString)).

(** The dash-delimited segments of a caption; [true] selects the en dash. *)
Fixpoint dashed (segs : list (bool * string)) : string :=
  match segs with
  | [] => EmptyString
  | (en, text) :: segs' =>
      (if en then en_dash else "-") +:+ " " +:+ text +:+ dashed segs'
  end.

(** [aria-label=Q<kind> <segments>Q] *)
Definition caption (kind : string) (segs : list (bool * string)) : string :=
  "aria-label=" +:+ String dquote kind +:+ " " +:+ dashed segs
  +:+ String dquote "".

(** The awaited computation never ends in [process.exit]. *)
Definition never_exits {A} (c : Async A) : Prop :=
  ∀ w code, fst (c w) ≠ Exit code.

(** Whether [/(\.[\w\d_-]+)$/] matches somewhere in [name]. *)
Fixpoint has_extension (name : string) : bool :=
  match name with
  | EmptyString => false
  | String c s' => Ascii.eqb c "." && Legacy.ext_run s' || has_extension s'
  end.

(** The events of [cleanup]. *)
Definition is_close (e : Event) : bool :=
  match e with
  | BrowserClose | ExiftoolEnd => true
  | _ => false
  end.

(** No cleanup among the events. *)
Definition unclosed (t : list Event) : bool :=
  forallb (λ e, negb (is_close e)) t.

(** A computation that calls no cleanup and that ends the process only with
    code 1, the exit being its last event. *)
Definition unclosing {A} (c : Async A) : Prop :=
  ∀ w, ∃ q, trace (snd (c w)) = trace w ++ q ∧ unclosed q = true
            ∧ ∀ code, fst (c w) = Exit code →
                      code = 1 ∧ ∃ q', q = q' ++ [ProcessExit 1].

(** How a run can end, on the events [t] that it added: after a return the
    cleanup is the last thing that happened, and it happened once; an exit
    has code 1 and is the last event, with the cleanup directly before it
    when no download was triggered yet and the browser was launched, and no
    cleanup at all once a download was triggered; a rejection comes without
    cleanup. *)
Definition ending {A} (r : Completion A) (t : list Event) : Prop :=
  match r with
  | Normal _ => ∃ pre, t = pre ++ [BrowserClose; ExiftoolEnd]
                       ∧ unclosed pre = true
  | Exit code =>
      code = 1
      ∧ ∃ pre, t = pre ++ [ProcessExit 1]
               ∧ (KeyDown "Shift" ∈ pre → unclosed pre = true)
               ∧ (KeyDown "Shift" ∉ pre →
                  pre = [] ∨ ∃ pre', pre = pre' ++ [BrowserClose; ExiftoolEnd])
  | Throw _ => unclosed t = true
  end.

(** ** A reference engine and library, for the concrete runs below *)

Module Reference.

Definition months : list string :=
  ["Jan"; "Feb"; "Mar"; "Apr"; "May"; "Jun";
   "Jul"; "Aug"; "Sep"; "Oct"; "Nov"; "Dec"].

Fixpoint index_of (x : string) (l : list string) (i : Z) : option Z :=
  match l with
  | [] => None
  | y :: l' => if String.eqb x y then Some i else index_of x l' (i + 1)
  end.

Fixpoint read_digits (s : string) : string * string :=
  match s with
  | String c s' =>
      if is_digit c then let '(d, r) := read_digits s' in (String c d, r)
      else (EmptyString, s)
  | EmptyString => (EmptyString, EmptyString)
  end.

Definition Z_of_digits (d : string) : Z :=
  fold_left (λ acc c, 10 * acc + (Z.of_nat (nat_of_ascii c) - 48))
            (list_ascii_of_string d) 0.

(** Days from 1970-01-01 to the civil date. *)
Definition days_from_civil (y m d : Z) : Z :=
  let y' := if m <=? 2 then y - 1 else y in
  let era := y' / 400 in
  let yoe := y' - era * 400 in
  let doy := (153 * (m + (if 2 <? m then -3 else 9)) + 2) / 5 + d - 1 in
  let doe := yoe * 365 + yoe / 4 - yoe / 100 + doy in
  era * 146097 + doe - 719468.

(** [new Date(s)] for the English captions of the photo page,
    [Mon D, YYYY], in a UTC time zone; anything else is an invalid date. *)
Definition english_Date (s : string) : JsDate :=
  match index_of (substring 0 3 s) months 0,
        strip_prefix " " (substring 3 (String.length s - 3) s) with
  | Some m, Some s1 =>
      let '(day, s2) := read_digits s1 in
      match strip_prefix ", " s2 with
      | Some s3 =>
          let '(yr, s4) := read_digits s3 in
          if String.eqb day "" || String.eqb yr "" || negb (String.eqb s4 "")
          then InvalidDate
          else ValidDate (Z_of_digits yr) m
                 (days_from_civil (Z_of_digits yr) (m + 1) (Z_of_digits day)
                  * 86400000)
      | None => InvalidDate
      end
  | _, _ => InvalidDate
  end.

Definition engine : Engine :=
  {| URL_ok := λ s, String.prefix "https://" s || String.prefix "http://" s;
     new_Date := english_Date;
     exif_write := λ f d,
       match d with
       | ValidDate y m _ =>
           Some {| bytes := bytes f;
                   DateTimeOriginal :=
                     Some (TagDateTime {| year := Num y; month := Num (m + 1) |}) |}
       | InvalidDate => None
       end;
     randomNumber := 424242 |}.

Definition jpeg (content : string) (y m : Z) : File :=
  {| bytes := content;
     DateTimeOriginal := Some (TagDateTime {| year := Num y; month := Num m |}) |}.

Definition photo (u temp name : string) (f : File) (arrows : list bool)
  : PhotoPage :=
  {| url := u; host := "photos.google.com"; prev_arrows := arrows;
     download := Some {| dl_path := Some temp; dl_suggestedFilename := name;
                         dl_file := f |};
     html := "<html></html>" |}.

Definition urlA : string := "https://photos.google.com/photo/A".
Definition urlB : string := "https://photos.google.com/photo/B".

Definition photoA : PhotoPage :=
  photo urlA "/tmp/dl/a" "IMG_0001.jpg" (jpeg "first" 2020 1) [true].

(** A second photo with the same suggested name and the same month. *)
Definition photoB : PhotoPage :=
  photo urlB "/tmp/dl/b" "IMG_0001.jpg" (jpeg "second" 2020 1) [true].

(** A second photo with a name of its own. *)
Definition photoC : PhotoPage :=
  photo urlB "/tmp/dl/c" "IMG_0002.jpg" (jpeg "third" 2021 3) [true].

(** A photo page without a previous-photo control. *)
Definition photoA_no_arrow : PhotoPage :=
  photo urlA "/tmp/dl/a" "IMG_0001.jpg" (jpeg "first" 2020 1) [].

(** A photo page whose download has no retrievable path. *)
Definition photoA_no_path : PhotoPage :=
  {| url := urlA; host := "photos.google.com"; prev_arrows := [true];
     download := Some {| dl_path := None;
                         dl_suggestedFilename := "IMG_0001.jpg";
                         dl_file := jpeg "first" 2020 1 |};
     html := "<html></html>" |}.

(** An asset without a capture date, on a page that carries the caption. *)
Definition untagged : File := {| bytes := "raw"; DateTimeOriginal := None |}.

Definition photoD : PhotoPage :=
  {| url := urlA; host := "photos.google.com"; prev_arrows := [true];
     download := Some {| dl_path := Some "/tmp/dl/d";
                         dl_suggestedFilename := "IMG_0004.jpg";
                         dl_file := untagged |};
     html := "<div " +:+ label_jan_5_2020 +:+ "></div>" |}.

(** A page whose markup carries another caption before that one. *)
Definition photoE : PhotoPage :=
  {| url := urlB; host := "photos.google.com"; prev_arrows := [true];
     download := Some {| dl_path := Some "/tmp/dl/e";
                         dl_suggestedFilename := "IMG_0005.jpg";
                         dl_file := untagged |};
     html := "<a aria-label=" +:+ String dquote "Video - Mar 3, 2019"
             +:+ String dquote "></a><a " +:+ label_jan_5_2020 +:+ "></a>" |}.

(** The session: the page shown for the start link, the newest photo, and
    the pages that the clicks lead to. *)
Definition library (first : PhotoPage) (latest : string)
    (next : list PhotoPage) : Browser :=
  {| home := mainGooglePhotosUrl;
     activeElement_href := Some latest;
     photoAt := λ _, first;
     navigations := next |}.

Definition options (flat : bool) (seed : option string) : Options :=
  {| headless := true; photoDirectory := "./download";
     sessionDirectory := "./session"; initialPhotoUrl := seed;
     writeScrapedExif := false; flatDirectoryStructure := flat |}.

(** The photo directory with the checkpoint at [urlA]. *)
Definition resumed : gmap string File :=
  {[ "download/.lastdone" := {| bytes := urlA; DateTimeOriginal := None |} ]}.

(** Two photos with the same name and month, the second one newest. *)
Definition collision_run : Completion unit * World :=
  start engine (library photoA urlB [photoB]) (options false None)
        (init resumed).

(** The checkpoint already at the newest photo. *)
Definition uptodate_run : Completion unit * World :=
  start engine (library photoA urlA []) (options false None) (init resumed).

(** Two photos, flat directory structure selected. *)
Definition flat_run : Completion unit * World :=
  start engine (library photoA urlB [photoC]) (options true None)
        (init resumed).

(** No previous-photo control is visible and the newest photo is not
    reached. *)
Definition no_arrow_run : Completion unit * World :=
  start engine (library photoA_no_arrow urlB [photoB]) (options false None)
        (init resumed).

(** The first download has no path. *)
Definition no_path_run : Completion unit * World :=
  start engine (library photoA_no_path urlB [photoB]) (options false None)
        (init resumed).

(** A second photo whose suggested name has no extension. *)
Definition photoF : PhotoPage :=
  photo urlB "/tmp/dl/f" "IMG_0003" (jpeg "newer" 2020 1) [true].

(** An asset without a capture date, on a page whose caption is no date. *)
Definition photoG : PhotoPage :=
  {| url := urlA; host := "photos.google.com"; prev_arrows := [true];
     download := Some {| dl_path := Some "/tmp/dl/g";
                         dl_suggestedFilename := "IMG_0006.jpg";
                         dl_file := untagged |};
     html := "<div aria-label=" +:+ String dquote "Photo - Landscape"
             +:+ String dquote "></div>" |}.

(** The options of a call of [downloadPhoto] that passes the directory
    only. *)
Definition directory_only : DownloadOptions :=
  {| o_photoDirectory := "download"; o_overwrite := None;
     o_writeScrapedExif := None; o_flatDirectoryStructure := None |}.

(** The photo directory with a file at the destination of [photoF]. *)
Definition occupied : gmap string File :=
  {[ "download/2020/1/IMG_0003" := jpeg "older" 2020 1 ]}.

(** A seed that is no URL. *)
Definition no_scheme : string := "photos.google.com/photo/A".

End Reference.

(** * Properties *)

Local Arguments Ascii.eqb : simpl never.
Local Arguments String.eqb : simpl never.

Example clean_u0 :
  clean "https://photos.google.com/u/0/photo/AF1Qip" =
  "https://photos.google.com/photo/AF1Qip".
Proof. reflexivity. Qed.

Example join_nested :
  path.join ["./download"; js_template (Num 2020); js_template (Num 1);
             "IMG_0001.jpg"] = "download/2020/1/IMG_0001.jpg".
Proof. vm_compute. reflexivity. Qed.

Example caption_with_en_dashes :
  aria_label_exec
    ("<a aria-label=" +:+ String dquote "Photo " +:+ en_dash +:+ " Landscape "
     +:+ en_dash +:+ " Feb 1, 2019" +:+ String dquote "></a>")
  = Some "Feb 1, 2019".
Proof. vm_compute. reflexivity. Qed.

Example rename_extension :
  Legacy.rename 42 "a.tar.gz" = "a.tar_42.gz" ∧ Legacy.rename 42 "README" = "README".
Proof. split; vm_compute; reflexivity. Qed.

Example join_dotdot :
  path.join ["/srv/photos/"; "../a.jpg"] = "/srv/a.jpg".
Proof. vm_compute. reflexivity. Qed.

(** ** URL canonicalisation *)

Lemma digits_then_slash_run (ds post : string) (seen : bool) :
  all_digits ds = true → seen = true ∨ ds ≠ "" →
  digits_then_slash seen (ds +:+ "/" +:+ post) = Some post.
Proof.
  revert seen. induction ds as [|c ds IH]; intros seen Hd Hs.
  - destruct Hs as [-> | Hne]; [reflexivity | congruence].
  - unfold all_digits in Hd. simpl in Hd. apply andb_prop in Hd as [Hc Hd].
    simpl. rewrite Hc. apply IH; [exact Hd | now left].
Qed.

Lemma digits_then_slash_insert (pre ds post : string) (seen : bool) :
  digits_then_slash seen (pre +:+ "/" +:+ post) = None →
  digits_then_slash seen (pre +:+ "/u/" +:+ ds +:+ "/" +:+ post) = None.
Proof.
  revert seen. induction pre as [|c pre IH]; intros seen H.
  - simpl in *. destruct seen; [discriminate | reflexivity].
  - simpl in *. destruct (is_digit c); [now apply IH|].
    destruct (seen && Ascii.eqb c "/"); [discriminate | reflexivity].
Qed.

Lemma account_segment_at_insert (pre ds post : string) :
  pre ≠ "" →
  account_segment_at (pre +:+ "/" +:+ post) = None →
  account_segment_at (pre +:+ "/u/" +:+ ds +:+ "/" +:+ post) = None.
Proof.
  unfold account_segment_at. intros Hne H.
  destruct pre as [|c1 [|c2 [|c3 pre]]]; [congruence | | |]; simpl in *.
  - destruct (Ascii.eqb "/" c1); reflexivity.
  - destruct (Ascii.eqb "/" c1); [|reflexivity].
    destruct (Ascii.eqb "u" c2); reflexivity.
  - destruct (Ascii.eqb "/" c1); [|reflexivity].
    destruct (Ascii.eqb "u" c2); [|reflexivity].
    destruct (Ascii.eqb "/" c3); [|reflexivity].
    now apply digits_then_slash_insert.
Qed.

Lemma clean_unfold (s : string) :
  clean s = match account_segment_at s with
            | Some rest => String "/" rest
            | None => match s with
                      | String c s' => String c (clean s')
                      | EmptyString => EmptyString
                      end
            end.
Proof. destruct s; reflexivity. Qed.

Lemma has_account_segment_unfold (s : string) :
  has_account_segment s = match account_segment_at s with
                          | Some _ => true
                          | None => match s with
                                    | String _ s' => has_account_segment s'
                                    | EmptyString => false
                                    end
                          end.
Proof. destruct s; reflexivity. Qed.

Lemma clean_canonical (s : string) :
  has_account_segment s = false → clean s = s.
Proof.
  induction s as [|c s IH]; [reflexivity|].
  rewrite has_account_segment_unfold, clean_unfold.
  destruct (account_segment_at (String c s)); [discriminate|].
  intros H. now rewrite IH.
Qed.

Lemma clean_inserted_segment (pre ds post : string) :
  ds ≠ "" → all_digits ds = true →
  has_account_segment (pre +:+ "/" +:+ post) = false →
  clean (pre +:+ "/u/" +:+ ds +:+ "/" +:+ post) = pre +:+ "/" +:+ post.
Proof.
  intros Hne Hd. induction pre as [|c pre IH]; intros H.
  - change (clean ("/u/" +:+ ds +:+ "/" +:+ post) = String "/" post).
    rewrite clean_unfold.
    assert (Hm : account_segment_at ("/u/" +:+ ds +:+ "/" +:+ post) = Some post).
    { unfold account_segment_at.
      change (strip_prefix "/u/" ("/u/" +:+ ds +:+ "/" +:+ post))
        with (Some (ds +:+ "/" +:+ post)).
      apply digits_then_slash_run; [exact Hd | now right]. }
    now rewrite Hm.
  - change (has_account_segment (String c (pre +:+ "/" +:+ post)) = false) in H.
    rewrite has_account_segment_unfold in H.
    destruct (account_segment_at (String c (pre +:+ "/" +:+ post))) eqn:Ha;
      [discriminate|].
    pose proof (account_segment_at_insert (String c pre) ds post
                  ltac:(discriminate) Ha) as Hi.
    change (account_segment_at
              (String c (pre +:+ "/u/" +:+ ds +:+ "/" +:+ post)) = None) in Hi.
    change (clean (String c (pre +:+ "/u/" +:+ ds +:+ "/" +:+ post)) =
            String c (pre +:+ "/" +:+ post)).
    rewrite clean_unfold, Hi. now rewrite IH.
Qed.

(** C9. [clean] removes the account-index segment: for a photo URL that has
    no such segment of its own, the same URL with a segment [/u/<digits>/] put
    in is cleaned to the URL itself, which [clean] leaves as it is; so the two
    are equal after [clean]. With [https://host], [3] and [photo/abc] this is
    the example of the specification. *)
Theorem clean_account_index (pre ds post : string) :
  ds ≠ "" → all_digits ds = true →
  has_account_segment (pre +:+ "/" +:+ post) = false →
  clean (pre +:+ "/u/" +:+ ds +:+ "/" +:+ post) = pre +:+ "/" +:+ post
  ∧ clean (pre +:+ "/" +:+ post) = pre +:+ "/" +:+ post
  ∧ clean (pre +:+ "/u/" +:+ ds +:+ "/" +:+ post) = clean (pre +:+ "/" +:+ post).
Proof.
  intros Hne Hd H.
  pose proof (clean_inserted_segment pre ds post Hne Hd H) as Hi.
  pose proof (clean_canonical _ H) as Hc.
  split; [exact Hi|]. split; [exact Hc|]. now rewrite Hi, Hc.
Qed.

(** C9 at the example of the specification. *)
Lemma clean_account_index_host :
  clean "https://host/u/3/photo/abc" = "https://host/photo/abc"
  ∧ clean "https://host/photo/abc" = "https://host/photo/abc"
  ∧ clean "https://host/u/3/photo/abc" = clean "https://host/photo/abc".
Proof.
  apply (clean_account_index "https://host" "3" "photo/abc").
  - discriminate.
  - reflexivity.
  - reflexivity.
Defined.

(** ** The previous-photo control *)

Lemma isVisible_false (elements : list bool) :
  isVisible elements = false ↔ ∀ e, e ∈ elements → e = false.
Proof.
  induction elements as [|e l IH]; simpl.
  - split; [intros _ e He; inversion He | reflexivity].
  - destruct e.
    + split; [discriminate | intros H; apply H; left].
    + rewrite IH. split.
      * intros H e He. inversion He; subst; [reflexivity | now apply H].
      * intros H e He. apply H. now right.
Qed.

(** The callback returns [false] exactly when no element is visible, and then
    clicks nothing. *)
Lemma click_previous_false (elements : list bool) :
  fst (click_previous elements) = false ↔ ∀ e, e ∈ elements → e = false.
Proof.
  rewrite <- isVisible_false. unfold click_previous.
  destruct (isVisible elements); simpl; split; congruence.
Qed.

(** C7 (the code at the failing input). With a hidden first element and a
    visible second one the callback returns [true] and the element it clicked,
    the first, is not visible. *)
Theorem click_previous_clicks_hidden :
  click_previous [false; true] = (true, Some 0%nat)
  ∧ [false; true] !! 0%nat = Some false.
Proof. split; reflexivity. Qed.

(** ** Date resolution *)

Lemma js_seq_true (a : JsNum) (z : Z) : js_seq a z = true ↔ a = Num z.
Proof.
  destruct a as [| |x]; simpl; try (split; [discriminate | congruence]).
  rewrite Z.eqb_eq. split; congruence.
Qed.

Lemma exiftool_write_trace (E : Engine) (p : string) (d : JsDate) (w : World) :
  trace (snd (exiftool_write E p d w)) = trace w ++ [ExifWrite p d].
Proof.
  unfold exiftool_write, bind, emit. simpl.
  destruct (fs w !! p) as [f|]; [|reflexivity].
  destruct (exif_write E f d); reflexivity.
Qed.

(** [capture_date] on a stored asset, with the awaited calls unfolded. *)
Lemma capture_date_eq (E : Engine) (page : PhotoPage) (wse : bool)
    (tempPath : string) (w : World) (f : File) :
  fs w !! tempPath = Some f →
  capture_date E page wse tempPath w =
    let dto := DateTimeOriginal f in
    if js_seq (embedded_year dto) 1970 && js_seq (embedded_month dto) 1 then
      let w2 := log w [ExifRead tempPath; RequestGet (url page)] in
      if truthy_str (aria_label_exec (html page)) then
        let date := new_Date E (default "" (aria_label_exec (html page))) in
        bind (if wse then exiftool_write E tempPath date else ret tt)
             (λ _, ret (getFullYear date, js_succ (getMonth date))) w2
      else (Normal (embedded_year dto, embedded_month dto), w2)
    else (Normal (embedded_year dto, embedded_month dto),
          log w [ExifRead tempPath]).
Proof.
  intros Hf. unfold capture_date, exiftool_read, request_html, bind, emit, ret.
  cbn [log fs trace]. rewrite Hf.
  assert (Hl : log (log w [ExifRead tempPath]) [RequestGet (url page)] =
               log w [ExifRead tempPath; RequestGet (url page)]).
  { unfold log. cbn [fs trace]. now rewrite <- app_assoc. }
  destruct (js_seq _ 1970 && js_seq _ 1); [|reflexivity].
  rewrite Hl. destruct (truthy_str _); reflexivity.
Qed.

(** C10. The markup is fetched exactly when the values derived from the
    embedded metadata are year 1970 and month 1; that is the case for an absent
    (or unparsed) tag, for falsy year and month properties, and for a genuine
    January 1970; a tag with a year other than 1970 and a falsy month resolves
    to (year, 1) and no fetch is made. *)
Theorem fallback_exactly_on_sentinel (E : Engine) (page : PhotoPage)
    (wse : bool) (tempPath : string) (w : World) (f : File) :
  fs w !! tempPath = Some f →
  let dto := DateTimeOriginal f in
  let r := capture_date E page wse tempPath w in
  ((∃ rest, trace (snd r) =
            trace w ++ ExifRead tempPath :: RequestGet (url page) :: rest)
   ↔ embedded_year dto = Num 1970 ∧ embedded_month dto = Num 1)
  ∧ (dto = None
     ∨ (∃ raw, dto = Some (TagString raw))
     ∨ (∃ d, dto = Some (TagDateTime d)
             ∧ truthy (year d) = false ∧ truthy (month d) = false)
     ∨ dto = Some (TagDateTime {| year := Num 1970; month := Num 1 |})
     → embedded_year dto = Num 1970 ∧ embedded_month dto = Num 1)
  ∧ (∀ y m, dto = Some (TagDateTime {| year := Num y; month := m |}) →
            y ≠ 0 → y ≠ 1970 → truthy m = false →
            r = (Normal (Num y, Num 1), log w [ExifRead tempPath])).
Proof.
  intros Hf dto r. subst r. rewrite (capture_date_eq _ _ _ _ _ _ Hf).
  fold dto. cbv zeta. split; [|split].
  - destruct (js_seq (embedded_year dto) 1970) eqn:Hy;
      [destruct (js_seq (embedded_month dto) 1) eqn:Hm|]; cbn [andb].
    + apply js_seq_true in Hy, Hm. split; [now intros _|]. intros _.
      destruct (truthy_str _).
      * unfold bind, ret.
        destruct wse.
        -- pose proof (exiftool_write_trace E tempPath
                         (new_Date E (default "" (aria_label_exec (html page))))
                         (log w [ExifRead tempPath; RequestGet (url page)])) as Ht.
           destruct (exiftool_write _ _ _ _) as [[| |] w3]; cbn [snd] in *;
             rewrite Ht; cbn [log trace]; rewrite <- app_assoc; eauto.
        -- cbn [snd log trace]. eauto.
      * cbn [snd log trace]. eauto.
    + split.
      * intros [rest Hr]. cbn [snd log trace] in Hr.
        apply app_inv_head in Hr. discriminate.
      * intros [_ Hm']. apply js_seq_true in Hm'. congruence.
    + split.
      * intros [rest Hr]. cbn [snd log trace] in Hr.
        apply app_inv_head in Hr. discriminate.
      * intros [Hy' _]. apply js_seq_true in Hy'. congruence.
  - unfold embedded_year, embedded_month, js_or.
    intros [-> | [[raw ->] | [[d (-> & Hy & Hm)] | ->]]]; cbn;
      rewrite ?Hy, ?Hm; now split.
  - intros y m Hd Hy0 Hy Hm. rewrite Hd.
    unfold embedded_year, embedded_month, js_or. cbn [year month truthy].
    rewrite Hm. destruct (Z.eqb_spec y 0) as [|_]; [contradiction|].
    cbn [negb js_seq]. destruct (Z.eqb_spec y 1970) as [|_]; [contradiction|].
    reflexivity.
Qed.

Lemma strip_prefix_length (p s r : string) :
  strip_prefix p s = Some r →
  (String.length s = String.length p + String.length r)%nat.
Proof.
  revert s. induction p as [|a p IH]; intros s H.
  - now injection H as ->.
  - destruct s as [|b s]; [discriminate|]. cbn in H.
    destruct (Ascii.eqb a b); [|discriminate]. cbn. now rewrite (IH s H).
Qed.

Lemma strip_dash_length (s r : string) :
  strip_dash s = Some r → (String.length r < String.length s)%nat.
Proof.
  unfold strip_dash. intros H.
  destruct (strip_prefix "-" s) as [s'|] eqn:Hs.
  - injection H as ->. apply strip_prefix_length in Hs. cbn in Hs. lia.
  - apply strip_prefix_length in H. cbn in H. lia.
Qed.

Lemma date_text_length (s : string) :
  (String.length (snd (date_text s)) ≤ String.length s)%nat.
Proof.
  induction s as [|c s IH]; [reflexivity|]. cbn [date_text].
  destruct (Ascii.eqb c dquote || at_dash (String c s)); [reflexivity|].
  destruct (date_text s) as [t rest]. cbn in *. lia.
Qed.

(** The fuel of [date_groups] does not matter once it covers the text. *)
Lemma date_groups_fuel (n m : nat) (s : string) :
  (String.length s ≤ n)%nat → (String.length s ≤ m)%nat →
  date_groups n s = date_groups m s.
Proof.
  revert m s. induction n as [|n IH]; intros m s Hn Hm.
  - destruct s; [|cbn in Hn; lia]. now destruct m.
  - destruct m as [|m].
    { destruct s; [reflexivity | cbn in Hm; lia]. }
    cbn [date_groups].
    destruct (strip_dash s) as [s1|] eqn:H1; [|reflexivity].
    apply strip_dash_length in H1. cbn [mbind option_bind].
    destruct (strip_prefix " " s1) as [s2|] eqn:H2; [|reflexivity].
    apply strip_prefix_length in H2. cbn in H2. cbn [mbind option_bind].
    pose proof (date_text_length s2) as H3.
    destruct (date_text s2) as [t rest]. cbn [snd] in H3.
    destruct (String.eqb t ""); [reflexivity|].
    destruct rest as [|c rest]; [reflexivity|].
    destruct (Ascii.eqb c dquote); [reflexivity|].
    apply IH; lia.
Qed.

Lemma aria_label_exec_unfold (s : string) :
  aria_label_exec s = match aria_label_at s with
                      | Some lastMatch => Some lastMatch
                      | None => match s with
                                | String _ s' => aria_label_exec s'
                                | EmptyString => None
                                end
                      end.
Proof. destruct s; reflexivity. Qed.

(** The leftmost match wins: positions without a match are skipped. *)
Lemma aria_label_exec_skip (pre rest : string) :
  matches_before (String.length pre) (pre +:+ rest) = false →
  aria_label_exec (pre +:+ rest) = aria_label_exec rest.
Proof.
  induction pre as [|c pre IH]; [reflexivity|].
  change (String c pre +:+ rest) with (String c (pre +:+ rest)).
  cbn [String.length matches_before]. rewrite aria_label_exec_unfold.
  destruct (aria_label_at (String c (pre +:+ rest))); [discriminate|].
  exact IH.
Qed.

Lemma aria_label_at_jan_5_2020 (post : string) :
  aria_label_at (label_jan_5_2020 +:+ post) = Some "Jan 5, 2020".
Proof. vm_compute. reflexivity. Qed.

Lemma aria_label_exec_jan_5_2020 (pre post : string) :
  matches_before (String.length pre) (pre +:+ label_jan_5_2020 +:+ post) = false →
  aria_label_exec (pre +:+ label_jan_5_2020 +:+ post) = Some "Jan 5, 2020".
Proof.
  intros H. rewrite (aria_label_exec_skip _ _ H), aria_label_exec_unfold.
  now rewrite aria_label_at_jan_5_2020.
Qed.

(** C6 (amended). For an asset whose embedded metadata yields the sentinel
    (1970, 1): when the leftmost match of the accessibility-label pattern in
    the page's markup is [aria-label=Q Photo - Jan 5, 2020 Q] (and the engine
    reads that text as a date in January 2020), the resolved date is
    (2020, 1); when the pattern has no match the resolved date stays
    (1970, 1). Embedded metadata with a year and month other than the sentinel
    is returned at once, the markup is not fetched. *)
Theorem capture_date_resolution (E : Engine) (page : PhotoPage) (wse : bool)
    (tempPath : string) (w : World) (f : File) :
  fs w !! tempPath = Some f →
  let dto := DateTimeOriginal f in
  let r := capture_date E page wse tempPath w in
  (embedded_year dto = Num 1970 → embedded_month dto = Num 1 →
   (∀ pre post time,
       html page = pre +:+ label_jan_5_2020 +:+ post →
       matches_before (String.length pre) (html page) = false →
       new_Date E "Jan 5, 2020" = ValidDate 2020 0 time →
       (wse = true → is_Some (exif_write E f (ValidDate 2020 0 time))) →
       fst r = Normal (Num 2020, Num 1))
   ∧ (aria_label_exec (html page) = None →
      r = (Normal (Num 1970, Num 1),
           log w [ExifRead tempPath; RequestGet (url page)])))
  ∧ (∀ y m, dto = Some (TagDateTime {| year := Num y; month := Num m |}) →
            y ≠ 0 → m ≠ 0 → ¬ (y = 1970 ∧ m = 1) →
            r = (Normal (Num y, Num m), log w [ExifRead tempPath])).
Proof.
  intros Hf dto r. subst r. rewrite (capture_date_eq _ _ _ _ _ _ Hf).
  fold dto. cbv zeta. split.
  - intros Hy Hm. rewrite Hy, Hm. cbn [js_seq Z.eqb Pos.eqb andb]. split.
    + intros pre post time Hh Hb Hd Hw.
      rewrite Hh in Hb |- *. rewrite (aria_label_exec_jan_5_2020 _ _ Hb).
      change (truthy_str (Some "Jan 5, 2020")) with true.
      cbn [default from_option id]. rewrite Hd. unfold bind, ret.
      destruct wse; [|reflexivity].
      unfold exiftool_write, bind, emit. cbn [log fs trace]. rewrite Hf.
      destruct (Hw eq_refl) as [f' ->]. reflexivity.
    + intros ->. reflexivity.
  - intros y m Hd Hy0 Hm0 Hs. rewrite Hd.
    unfold embedded_year, embedded_month, js_or. cbn [year month truthy].
    destruct (Z.eqb_spec y 0) as [|_]; [contradiction|].
    destruct (Z.eqb_spec m 0) as [|_]; [contradiction|].
    cbn [negb js_seq].
    destruct (Z.eqb_spec y 1970) as [Hy|_], (Z.eqb_spec m 1) as [Hm|_];
      cbn [andb]; try reflexivity.
    exfalso. apply Hs. now split.
Qed.

(** ** Traces of the awaited calls *)

Lemma quiet_app (a b : list Event) :
  quiet (a ++ b) = quiet a && quiet b.
Proof. apply forallb_app. Qed.

Lemma silent_ret {A} (a : A) : silent (ret a).
Proof. intros w. exists []. split; [symmetry; apply app_nil_r | reflexivity]. Qed.

Lemma silent_throw {A} (e : Error) : silent (@throw A e).
Proof. intros w. exists []. split; [symmetry; apply app_nil_r | reflexivity]. Qed.

Lemma silent_emit (e : Event) : is_write e = false → silent (emit e).
Proof. intros He w. exists [e]. simpl. now rewrite He. Qed.

Lemma silent_process_exit {A} (code : Z) : silent (@process_exit A code).
Proof. intros w. now exists [ProcessExit code]. Qed.

Lemma silent_bind {A B} (c : Async A) (k : A → Async B) :
  silent c → (∀ a, silent (k a)) → silent (bind c k).
Proof.
  intros Hc Hk w. unfold bind. destruct (Hc w) as (q1 & H1 & Q1).
  destruct (c w) as [[a| |] w1]; cbn [snd] in *; [|now exists q1..].
  destruct (Hk a w1) as (q2 & H2 & Q2). exists (q1 ++ q2).
  rewrite H2, H1, quiet_app, Q1, Q2, app_assoc. now split.
Qed.

Lemma silent_try_catch {A} (c : Async A) (h : Error → Async A) :
  silent c → (∀ e, silent (h e)) → silent (try_catch c h).
Proof.
  intros Hc Hh w. unfold try_catch. destruct (Hc w) as (q1 & H1 & Q1).
  destruct (c w) as [[a| |e] w1]; cbn [snd] in *; [now exists q1..|].
  destruct (Hh e w1) as (q2 & H2 & Q2). exists (q1 ++ q2).
  rewrite H2, H1, quiet_app, Q1, Q2, app_assoc. now split.
Qed.

(** A step that leaves the trace as it is. *)
Lemma silent_pure {A} (c : Async A) :
  (∀ w, trace (snd (c w)) = trace w) → silent c.
Proof.
  intros H w. exists []. rewrite H. split; [symmetry; apply app_nil_r | reflexivity].
Qed.

Lemma silent_shiftD (page : PhotoPage) : silent (shiftD page).
Proof.
  unfold shiftD. apply silent_bind; [now apply silent_emit|]. intros _.
  apply silent_bind; [now apply silent_emit|]. intros _.
  destruct (download page); [|apply silent_throw].
  now apply silent_pure.
Qed.

Lemma silent_exiftool_read (p : string) : silent (exiftool_read p).
Proof.
  unfold exiftool_read. apply silent_bind; [now apply silent_emit|]. intros _.
  apply silent_pure. intros w. now destruct (fs w !! p).
Qed.

Lemma silent_exiftool_write (E : Engine) (p : string) (d : JsDate) :
  silent (exiftool_write E p d).
Proof.
  unfold exiftool_write. apply silent_bind; [now apply silent_emit|]. intros _.
  apply silent_pure. intros w. destruct (fs w !! p) as [f|]; [|reflexivity].
  now destruct (exif_write E f d).
Qed.

Lemma silent_capture_date (E : Engine) (page : PhotoPage) (wse : bool)
    (tempPath : string) : silent (capture_date E page wse tempPath).
Proof.
  unfold capture_date. apply silent_bind; [apply silent_exiftool_read|].
  intros metadata. destruct (_ && _); [|apply silent_ret].
  apply silent_bind.
  { unfold request_html. apply silent_bind; [now apply silent_emit|].
    intros _. apply silent_ret. }
  intros html. destruct (truthy_str _); [|apply silent_ret].
  apply silent_bind; [|intros _; apply silent_ret].
  destruct wse; [apply silent_exiftool_write | apply silent_ret].
Qed.

Lemma moveFile_trace (source destination : string) (ov : option bool) (w : World) :
  ∃ ok, trace (snd (moveFile source destination ov w)) =
        trace w ++ [MoveFile source destination ov ok].
Proof.
  unfold moveFile. destruct (_ && _); [now exists false|].
  destruct (fs w !! source); [now exists true | now exists false].
Qed.

Lemma shiftD_normal (page : PhotoPage) (dl : Download) (w w1 : World) :
  shiftD page w = (Normal dl, w1) → download page = Some dl.
Proof.
  unfold shiftD, bind, emit. destruct (download page) as [d|]; [|discriminate].
  now intros [= -> _].
Qed.

(** [downloadPhoto] writes no checkpoint, and when it returns its last event is
    the call of [moveFile] for the path of the page's download, with the
    [overwrite] it was given. *)
Lemma downloadPhoto_trace (E : Engine) (page : PhotoPage) (o : DownloadOptions)
    (w : World) :
  ∃ q, trace (snd (downloadPhoto E page o w)) = trace w ++ q
       ∧ quiet q = true
       ∧ (∀ a, fst (downloadPhoto E page o w) = Normal a →
               ∃ q' s d ok dl,
                 q = q' ++ [MoveFile s d (Some (default false (o_overwrite o))) ok]
                 ∧ download page = Some dl ∧ dl_path dl = Some s).
Proof.
  unfold downloadPhoto, bind.
  destruct (silent_shiftD page w) as (q1 & H1 & Q1).
  destruct (shiftD page w) as [[dl| |] w1] eqn:Hs; cbn [snd fst] in *;
    [|exists q1; repeat split; [assumption..|discriminate]
     |exists q1; repeat split; [assumption..|discriminate]].
  apply shiftD_normal in Hs.
  destruct (negb (truthy_str (dl_path dl))) eqn:Hp.
  { exists (q1 ++ [ProcessExit 1]). cbn [process_exit snd fst log trace].
    rewrite H1, quiet_app, Q1, app_assoc. repeat split. discriminate. }
  assert (Hpath : dl_path dl = Some (default "" (dl_path dl))).
  { destruct (dl_path dl); [reflexivity | discriminate]. }
  set (tempPath := default "" (dl_path dl)) in *.
  destruct (silent_capture_date E page (default false (o_writeScrapedExif o))
              tempPath w1) as (q2 & H2 & Q2).
  destruct (capture_date _ _ _ _ w1) as [[[y m]| |] w2]; cbn [snd fst] in *;
    [|exists (q1 ++ q2); rewrite H2, H1, quiet_app, Q1, Q2, app_assoc;
      repeat split; discriminate
     |exists (q1 ++ q2); rewrite H2, H1, quiet_app, Q1, Q2, app_assoc;
      repeat split; discriminate].
  set (dest := destDir _ _ _ _ _).
  set (ov := Some (default false (o_overwrite o))).
  destruct (moveFile_trace tempPath dest ov w2) as (ok & H3).
  exists ((q1 ++ q2) ++ [MoveFile tempPath dest ov ok]).
  assert (Ht : trace (snd (try_catch (moveFile tempPath dest ov)
                             (λ _, ret tt) w2)) =
               trace w ++ (q1 ++ q2) ++ [MoveFile tempPath dest ov ok]).
  { unfold try_catch, ret.
    destruct (moveFile tempPath dest ov w2) as [[[]| |] w3]; cbn [snd] in *;
      now rewrite H3, H2, H1, !app_assoc. }
  split; [exact Ht|]. split.
  - now rewrite !quiet_app, Q1, Q2.
  - intros _ _. now exists (q1 ++ q2), tempPath, dest, ok, dl.
Qed.

(** ** The order of checkpoint writes *)

Section Order.

Context (K : Event → Event → bool).

Lemma chain_app (a b : list Event) :
  chain K a = true → chain K b = true → joins K a b = true →
  chain K (a ++ b) = true.
Proof.
  induction a as [|x a IH]; [now intros|].
  destruct a as [|y a].
  - intros _ Hb Hj. destruct b as [|e b]; [reflexivity|].
    unfold joins in Hj. cbn in Hj |- *. now rewrite Hj.
  - intros Ha Hb Hj.
    change (in_order K x y && chain K (y :: a) = true) in Ha.
    apply andb_prop in Ha as [Hxy Ha].
    change (in_order K x y && chain K ((y :: a) ++ b) = true).
    rewrite Hxy. apply IH; assumption.
Qed.

Lemma chain_quiet (q : list Event) : quiet q = true → chain K q = true.
Proof.
  induction q as [|a q IH]; [reflexivity|].
  destruct q as [|b q]; [reflexivity|]. intros H.
  cbn in H. apply andb_prop in H as [Ha H]. pose proof H as Hq.
  apply andb_prop in H as [Hb _].
  change (in_order K a b && chain K (b :: q) = true).
  rewrite IH by exact Hq. unfold in_order.
  destruct (is_write a), (is_write b); try discriminate. reflexivity.
Qed.

Lemma quiet_last (q : list Event) (x : Event) :
  quiet q = true → last q = Some x → is_write x = false.
Proof.
  intros Hq Hl. unfold quiet in Hq. rewrite forallb_forall in Hq.
  apply last_Some_elem_of, list_elem_of_In, Hq in Hl.
  now destruct (is_write x).
Qed.

(** Events that are not checkpoint writes can be followed by any event that
    is not one either. *)
Lemma joins_quiet (a b : list Event) :
  quiet a = true → head_quiet b → joins K a b = true.
Proof.
  intros Ha Hb. unfold joins, head_quiet in *.
  destruct (last a) as [x|] eqn:Hl; [|reflexivity].
  destruct (head b) as [y|]; [|reflexivity].
  unfold in_order. rewrite Hb, (quiet_last a x Ha Hl). reflexivity.
Qed.

Lemma chain_lookup (t : list Event) (i : nat) (a b : Event) :
  chain K t = true → t !! i = Some a → t !! S i = Some b →
  in_order K a b = true.
Proof.
  revert i. induction t as [|x t IH]; intros i Hc Ha Hb; [discriminate|].
  destruct t as [|y t]; [discriminate|].
  change (in_order K x y && chain K (y :: t) = true) in Hc.
  apply andb_prop in Hc as [Hxy Hc].
  destruct i as [|i].
  - cbn in Ha, Hb. congruence.
  - apply (IH i); assumption.
Qed.

Lemma quiet_head_quiet (q : list Event) : quiet q = true → head_quiet q.
Proof.
  destruct q as [|e q]; [constructor|]. cbn. intros H.
  apply andb_prop in H as [H _]. now destruct (is_write e).
Qed.

Lemma silent_orderly {A} (c : Async A) : silent c → orderly K c.
Proof.
  intros H w. destruct (H w) as (q & Hq & Qq). exists q.
  repeat split; [exact Hq | now apply chain_quiet | now apply quiet_head_quiet].
Qed.

Lemma orderly_bind_silent {A B} (c : Async A) (k : A → Async B) :
  silent c → (∀ a, orderly K (k a)) → orderly K (bind c k).
Proof.
  intros Hc Hk w. unfold bind. destruct (Hc w) as (q & Hq & Qq).
  destruct (c w) as [[a| |] w1]; cbn [snd] in *.
  2,3: exists q; repeat split;
       [exact Hq | now apply chain_quiet | now apply quiet_head_quiet].
  destruct (Hk a w1) as (t & Ht & Ct & Qt). exists (q ++ t).
  rewrite Ht, Hq, app_assoc. repeat split.
  - apply chain_app; [now apply chain_quiet | exact Ct | now apply joins_quiet].
  - destruct q as [|e q]; [exact Qt | now apply (quiet_head_quiet (e :: q))].
Qed.

Lemma advancing_then_cleanup (c : Async unit) :
  advancing K c → orderly K (bind c (λ _, cleanup)).
Proof.
  intros Hc w. unfold bind. destruct (Hc w) as (t & Ht & Ct & At).
  assert (Hh : head_quiet t).
  { destruct t as [|e t]; [constructor|]. now destruct e. }
  destruct (c w) as [[[]| |] w1]; cbn [snd] in *; [|now exists t..].
  exists (t ++ [BrowserClose; ExiftoolEnd]).
  cbn [cleanup bind emit log snd trace]. rewrite Ht, <- !app_assoc.
  repeat split.
  - apply chain_app; [exact Ct | reflexivity|].
    unfold joins. destruct (last t) as [x|]; [|reflexivity].
    cbn [head]. unfold in_order. cbn. now destruct (is_write x).
  - destruct t as [|e t]; [reflexivity | exact Hh].
Qed.

End Order.

Lemma is_advance_not_write (e : Event) : is_advance e = true → is_write e = false.
Proof. now destruct e. Qed.

Lemma bind_assoc {A B C} (c : Async A) (k : A → Async B) (k' : B → Async C)
    (w : World) :
  bind c (λ a, bind (k a) k') w = bind (bind c k) k' w.
Proof. unfold bind. now destruct (c w) as [[a| |] w1]. Qed.

Lemma bind_ext {A B} (c : Async A) (k k' : A → Async B) (w : World) :
  (∀ a w', k a w' = k' a w') → bind c k w = bind c k' w.
Proof. intros H. unfold bind. destruct (c w) as [[a| |] w']; auto. Qed.

(** One round of the loop, with [page.waitForURL] as a function of its own. *)
Lemma loop_eq (E : Engine) (o : Options) (latestPhoto : string)
    (page : PhotoPage) (states : list PhotoPage) (w : World) :
  loop E o latestPhoto page states w =
    (if String.eqb (clean (url page)) (clean latestPhoto) then ret tt
     else
       clicked ← evaluate_click page;
       (if negb clicked then process_exit 1 else ret tt) ;;
       match waitForURL (url page) states with
       | None => throw TimeoutError
       | Some (p, rest) =>
           downloadPhoto E p (loop_options o) ;;
           saveProgress (photoDirectory o) (url p) ;;
           loop E o latestPhoto p rest
       end)%async w.
Proof.
  destruct states as [|s0 states]; cbn [loop waitForURL]; [reflexivity|].
  destruct (String.eqb _ _); [reflexivity|].
  apply bind_ext; intros clicked w1. apply bind_ext; intros [] w2.
  destruct (url_changed (url page) s0); [reflexivity|].
  clear s0. revert w2.
  induction states as [|s1 states IH]; intros w2; cbn [waitForURL];
    [reflexivity|].
  destruct (url_changed (url page) s1); [reflexivity | apply IH].
Qed.

Lemma waitForURL_Some (currentUrl : string) (pending rest : list PhotoPage)
    (p : PhotoPage) :
  waitForURL currentUrl pending = Some (p, rest) →
  (length rest < length pending)%nat
  ∧ p ∈ pending ∧ ∀ x, x ∈ rest → x ∈ pending.
Proof.
  induction pending as [|s pending IH]; [discriminate|]. cbn.
  destruct (url_changed currentUrl s).
  - intros [= -> ->]. repeat split; [lia | left | now right].
  - intros H. destruct (IH H) as (Hl & Hp & Hr).
    repeat split; [lia | now right | intros x Hx; right; now apply Hr].
Qed.

(** [saveProgress] with its two awaited calls unfolded. *)
Lemma saveProgress_eq (dir u : string) (w : World) :
  saveProgress dir u w =
    if String.eqb dir "" then (Throw (ENOENT dir), w)
    else (Normal tt,
          {| fs := <[lastdone dir := {| bytes := u; DateTimeOriginal := None |}]>
                     (fs w);
             trace := trace w ++ [WriteFile (lastdone dir) u] |}).
Proof.
  unfold saveProgress, mkdir, bind, throw, ret, writeFile.
  now destruct (String.eqb dir "").
Qed.

Lemma moved_then_saved_intro (dir : string) (pages : list PhotoPage)
    (p : PhotoPage) (dl : Download) (s d : string) (ok : bool) :
  p ∈ pages → download p = Some dl → dl_path dl = Some s →
  moved_then_saved dir pages (MoveFile s d (Some false) ok)
    (WriteFile (lastdone dir) (url p)) = true.
Proof.
  intros Hp Hd Hs. unfold moved_then_saved.
  rewrite String.eqb_refl. cbn [andb]. apply existsb_exists.
  exists p. split; [now apply list_elem_of_In|].
  rewrite String.eqb_refl, Hd. cbn [andb]. now apply bool_decide_eq_true.
Qed.

Lemma moved_then_saved_elim (dir : string) (pages : list PhotoPage)
    (a : Event) (p c : string) :
  moved_then_saved dir pages a (WriteFile p c) = true →
  ∃ s d ok page dl,
    a = MoveFile s d (Some false) ok ∧ p = lastdone dir
    ∧ page ∈ pages ∧ c = url page
    ∧ download page = Some dl ∧ dl_path dl = Some s.
Proof.
  unfold moved_then_saved.
  destruct a as [| | | | | | | |s d [[]|] ok| | | |]; try discriminate.
  intros H. apply andb_prop in H as [Hp H]. apply String.eqb_eq in Hp.
  apply existsb_exists in H as (page & Hin & H).
  apply andb_prop in H as [Hu H]. apply String.eqb_eq in Hu.
  destruct (download page) as [dl|] eqn:Hd; [|discriminate].
  apply bool_decide_eq_true in H.
  exists s, d, ok, page, dl. repeat split; try assumption.
  - now apply list_elem_of_In.
  - now symmetry.
Qed.

Lemma loop_advancing (E : Engine) (o : Options) (latestPhoto : string)
    (pages : list PhotoPage) (n : nat) :
  ∀ states, (length states ≤ n)%nat → (∀ x, x ∈ states → x ∈ pages) →
  ∀ page, advancing (moved_then_saved (photoDirectory o) pages)
            (loop E o latestPhoto page states).
Proof.
  set (K := moved_then_saved (photoDirectory o) pages).
  induction n as [|n IH]; intros states Hn Hsub page w; rewrite loop_eq.
  all: destruct (String.eqb _ _);
    [exists []; split; [symmetry; apply app_nil_r | now split]|].
  all: unfold bind at 1; unfold evaluate_click, click_previous.
  all: destruct (isVisible (prev_arrows page)); cbn [negb];
    [|exists [ProcessExit 1]; now repeat split].
  all: cbn [bind emit ret process_exit negb fst snd].
  all: unfold bind at 1 2; cbn [emit ret negb].
  all: destruct (waitForURL (url page) states) as [[p rest]|] eqn:Hw;
    [|exists [Click 0%nat]; now repeat split].
  - apply waitForURL_Some in Hw as (Hw & _). lia.
  - apply waitForURL_Some in Hw as (Hw & Hp & Hrest).
    destruct (downloadPhoto_trace E p (loop_options o) (log w [Click 0%nat]))
      as (q & Hq & Qq & Hend).
    destruct (downloadPhoto E p (loop_options o) (log w [Click 0%nat]))
      as [[[]| |] w2]; cbn [fst snd] in *.
    2,3: exists (Click 0%nat :: q); rewrite Hq; cbn [log trace];
         rewrite <- app_assoc; repeat split;
         apply (chain_quiet K (Click 0%nat :: q)); exact Qq.
    destruct (Hend tt eq_refl) as (q' & s & d & ok & dl & -> & Hd & Hs).
    rewrite saveProgress_eq.
    destruct (String.eqb (photoDirectory o) "").
    { exists (Click 0%nat :: q' ++ [MoveFile s d (Some false) ok]).
      cbn [snd]. rewrite Hq. cbn [log trace]. rewrite <- app_assoc.
      repeat split.
      apply (chain_quiet K (Click 0%nat :: q' ++ [MoveFile s d (Some false) ok])).
      exact Qq. }
    destruct (IH rest ltac:(lia) ltac:(auto) p
                {| fs := <[lastdone (photoDirectory o) :=
                             {| bytes := url p; DateTimeOriginal := None |}]> (fs w2);
                   trace := trace w2 ++ [WriteFile (lastdone (photoDirectory o)) (url p)] |})
      as (t & Ht & Ct & At).
    exists ((Click 0%nat :: q') ++
            [MoveFile s d (Some false) ok;
             WriteFile (lastdone (photoDirectory o)) (url p)] ++ t).
    rewrite Ht. cbn [trace]. rewrite Hq. cbn [log trace].
    split; [now rewrite <- !app_assoc|]. split; [|reflexivity].
    rewrite quiet_app in Qq. apply andb_prop in Qq as [Qq' _].
    apply chain_app.
    + apply (chain_quiet K (Click 0%nat :: q')). exact Qq'.
    + change (in_order K (MoveFile s d (Some false) ok)
                (WriteFile (lastdone (photoDirectory o)) (url p))
              && chain K (WriteFile (lastdone (photoDirectory o)) (url p) :: t)
              = true).
      apply andb_true_intro. split.
      * unfold in_order. cbn [is_write implb andb]. rewrite andb_true_r.
        apply moved_then_saved_intro with dl; auto.
      * destruct t as [|e t]; [reflexivity|].
        cbn [head_advance] in At.
        change (in_order K (WriteFile (lastdone (photoDirectory o)) (url p)) e
                && chain K (e :: t) = true).
        rewrite Ct, andb_true_r. unfold in_order.
        now rewrite At, (is_advance_not_write e At).
    + apply (joins_quiet K (Click 0%nat :: q')); [exact Qq' | reflexivity].
Qed.

Lemma silent_cleanup : silent cleanup.
Proof.
  unfold cleanup. apply silent_bind; [now apply silent_emit|].
  intros _. now apply silent_emit.
Qed.

Lemma silent_downloadPhoto (E : Engine) (page : PhotoPage) (o : DownloadOptions) :
  silent (downloadPhoto E page o).
Proof.
  intros w. destruct (downloadPhoto_trace E page o w) as (q & Hq & Qq & _).
  now exists q.
Qed.

Lemma backup_orderly (E : Engine) (B : Browser) (o : Options) (startLink : string) :
  orderly (moved_then_saved (photoDirectory o) (navigations B))
    (backup E B o startLink).
Proof.
  unfold backup. apply orderly_bind_silent.
  { destruct (URL_ok E startLink); [apply silent_ret | apply silent_throw]. }
  intros _. apply orderly_bind_silent; [now apply silent_emit|]. intros _.
  apply orderly_bind_silent; [now apply silent_emit|]. intros _.
  destruct (negb (String.eqb (home B) mainGooglePhotosUrl)).
  { apply silent_orderly, silent_bind; [apply silent_cleanup|].
    intros _. apply silent_process_exit. }
  apply orderly_bind_silent.
  { unfold getLatestPhoto. apply silent_bind; [now apply silent_emit|].
    intros _. apply silent_ret. }
  intros latest. destruct (negb (truthy_str latest)).
  { apply silent_orderly, silent_bind; [apply silent_cleanup|].
    intros _. apply silent_process_exit. }
  apply orderly_bind_silent; [now apply silent_emit|]. intros _.
  apply orderly_bind_silent; [apply silent_downloadPhoto|]. intros _.
  apply advancing_then_cleanup.
  now apply (loop_advancing E o _ _ (length (navigations B))).
Qed.

(** [start] with the load of the checkpoint and the seeding unfolded. *)
Lemma start_eq (E : Engine) (B : Browser) (o : Options) (w : World) :
  start E B o w =
    let dir := photoDirectory o in
    let seeding :=
      match initialPhotoUrl o with
      | Some seed =>
          if String.eqb seed "" then (Exit 1, log w [ProcessExit 1])
          else if String.eqb dir "" then (Throw (ENOENT dir), w)
          else backup E B o seed
                 {| fs := <[lastdone dir :=
                              {| bytes := seed; DateTimeOriginal := None |}]>
                            (fs w);
                    trace := trace w ++ [WriteFile (lastdone dir) seed] |}
      | None => (Exit 1, log w [ProcessExit 1])
      end in
    match fs w !! lastdone dir with
    | Some f => if String.eqb (bytes f) "" then seeding else backup E B o (bytes f) w
    | None => seeding
    end.
Proof.
  cbv zeta. unfold start, try_catch, getProgress, readFile. unfold bind.
  destruct (fs w !! lastdone (photoDirectory o)) as [f|];
    [destruct (String.eqb (bytes f) "")|]; cbn [throw ret]; try reflexivity.
  all: destruct (initialPhotoUrl o) as [seed|];
    cbn [truthy_str default from_option id negb]; try reflexivity.
  all: destruct (String.eqb seed ""); cbn [negb]; try reflexivity.
  all: rewrite saveProgress_eq; now destruct (String.eqb (photoDirectory o) "").
Qed.

(** The trace of a whole run: in order throughout, or in order after the
    seeding write that opens it. *)
Lemma start_trace (E : Engine) (B : Browser) (o : Options)
    (files : gmap string File) :
  let K := moved_then_saved (photoDirectory o) (navigations B) in
  let t := trace (snd (start E B o (init files))) in
  chain K t = true
  ∨ ∃ p c t', t = WriteFile p c :: t' ∧ chain K t' = true ∧ head_quiet t'.
Proof.
  intros K. rewrite start_eq. cbv zeta. cbn [init fs trace].
  assert (Hseed : ∀ seed w,
    trace w = [WriteFile (lastdone (photoDirectory o)) seed] →
    let t := trace (snd (backup E B o seed w)) in
    ∃ p c t', t = WriteFile p c :: t' ∧ chain K t' = true ∧ head_quiet t').
  { intros seed w Hw.
    destruct (backup_orderly E B o seed w) as (t & Ht & Ct & Qt).
    cbv zeta. rewrite Ht, Hw. eexists _, _, t. now repeat split. }
  assert (Hseeding :
    let t := trace (snd (
      match initialPhotoUrl o with
      | Some seed =>
          if String.eqb seed "" then (Exit 1, log (init files) [ProcessExit 1])
          else if String.eqb (photoDirectory o) ""
               then (Throw (ENOENT (photoDirectory o)), init files)
               else backup E B o seed
                      {| fs := <[lastdone (photoDirectory o) :=
                                   {| bytes := seed; DateTimeOriginal := None |}]>
                                 files;
                         trace := [] ++ [WriteFile (lastdone (photoDirectory o)) seed] |}
      | None => (Exit 1, log (init files) [ProcessExit 1])
      end)) in
    chain K t = true
    ∨ ∃ p c t', t = WriteFile p c :: t' ∧ chain K t' = true ∧ head_quiet t').
  { destruct (initialPhotoUrl o) as [seed|]; [|now left].
    destruct (String.eqb seed ""); [now left|].
    destruct (String.eqb (photoDirectory o) ""); [now left|].
    right. now apply Hseed. }
  destruct (files !! lastdone (photoDirectory o)) as [f|]; [|exact Hseeding].
  destruct (String.eqb (bytes f) ""); [exact Hseeding|].
  left. destruct (backup_orderly E B o (bytes f) (init files))
    as (t & Ht & Ct & _).
  cbn [init trace app] in Ht. now rewrite Ht.
Qed.

Lemma in_order_write (K : Event → Event → bool) (a b : Event) (p c : string) :
  in_order K a b = true →
  (b = WriteFile p c → K a b = true)
  ∧ (a = WriteFile p c → is_advance b = true).
Proof.
  unfold in_order. intros H. apply andb_prop in H as [H1 H2].
  split; intros ->; assumption.
Qed.

(** C1 (amended). In every run, each checkpoint write other than the seeding
    write comes directly after the [moveFile] call for the download of the
    page whose URL it writes, whether that call succeeded or not, and what
    comes directly after it, if anything, is the click that advances to the
    next photo or the end of the run. *)
Theorem checkpoint_after_move_attempt (E : Engine) (B : Browser) (o : Options)
    (files : gmap string File) (i : nat) (p c : string) :
  let t := trace (snd (start E B o (init files))) in
  t !! S i = Some (WriteFile p c) →
  (∃ s d ok page dl,
      t !! i = Some (MoveFile s d (Some false) ok)
      ∧ p = lastdone (photoDirectory o)
      ∧ page ∈ navigations B ∧ c = url page
      ∧ download page = Some dl ∧ dl_path dl = Some s)
  ∧ (∀ e, t !! S (S i) = Some e → is_advance e = true).
Proof.
  intros t Hw. subst t.
  destruct (start_trace E B o files) as [Ct | (p0 & c0 & t' & Ht & Ct & Qt)].
  - set (t := trace _) in *.
    destruct (lookup_lt_is_Some_2 t i) as [a Ha].
    { apply lookup_lt_Some in Hw. lia. }
    split.
    + destruct (in_order_write _ a _ p c (chain_lookup _ t i _ _ Ct Ha Hw))
        as [H _].
      destruct (moved_then_saved_elim _ _ _ _ _ (H eq_refl))
        as (s & d & ok & page & dl & -> & H').
      now exists s, d, ok, page, dl.
    + intros e He.
      now destruct (in_order_write _ _ e p c
                      (chain_lookup _ t (S i) _ _ Ct Hw He)) as [_ H]; apply H.
  - set (t := trace _) in *. rewrite Ht in Hw |- *. cbn in Hw.
    destruct i as [|i].
    + unfold head_quiet in Qt. destruct t' as [|e t']; [discriminate|].
      cbn in Hw, Qt. injection Hw as ->. discriminate.
    + destruct (lookup_lt_is_Some_2 t' i) as [a Ha].
      { apply lookup_lt_Some in Hw. lia. }
      split.
      * destruct (in_order_write _ a _ p c (chain_lookup _ t' i _ _ Ct Ha Hw))
          as [H _].
        destruct (moved_then_saved_elim _ _ _ _ _ (H eq_refl))
          as (s & d & ok & page & dl & -> & H').
        exists s, d, ok, page, dl. split; [exact Ha | exact H'].
      * intros e He. change (t' !! S (S i) = Some e) in He.
        now destruct (in_order_write _ _ e p c
                        (chain_lookup _ t' (S i) _ _ Ct Hw He)) as [_ H]; apply H.
Qed.

(** ** Placement *)

Lemma shiftD_download (page : PhotoPage) (dl : Download) (w : World) :
  download page = Some dl → fst (shiftD page w) = Normal dl.
Proof. intros H. unfold shiftD, bind, emit. now rewrite H. Qed.

Lemma shiftD_eq (page : PhotoPage) (dl : Download) (w : World) :
  download page = Some dl →
  shiftD page w =
    (Normal dl,
     {| fs := match dl_path dl with
              | Some p => <[p := dl_file dl]> (fs w)
              | None => fs w
              end;
        trace := trace w ++ [KeyDown "Shift"; KeyPress "KeyD"] |}).
Proof.
  intros H. unfold shiftD, bind, emit. rewrite H. cbn [log fs trace].
  now rewrite <- app_assoc.
Qed.

Lemma shiftD_frame (page : PhotoPage) (w : World) (k : string) :
  (∀ dl, download page = Some dl → dl_path dl ≠ Some k) →
  fs (snd (shiftD page w)) !! k = fs w !! k.
Proof.
  intros H. destruct (download page) as [d|] eqn:Hd.
  - rewrite (shiftD_eq page d w Hd). cbn [snd fs].
    specialize (H d eq_refl).
    destruct (dl_path d) as [p|]; [|reflexivity].
    rewrite lookup_insert_ne; [reflexivity | congruence].
  - unfold shiftD, bind, emit. now rewrite Hd.
Qed.

Lemma exiftool_write_frame (E : Engine) (p : string) (d : JsDate) (w : World)
    (k : string) :
  k ≠ p → fs (snd (exiftool_write E p d w)) !! k = fs w !! k.
Proof.
  intros Hk. unfold exiftool_write, bind, emit. cbn [log fs trace].
  destruct (fs w !! p) as [f|]; [|reflexivity].
  destruct (exif_write E f d); [|reflexivity].
  cbn [snd fs]. now rewrite lookup_insert_ne.
Qed.

(** The date resolution changes no file but the downloaded one. *)
Lemma capture_date_frame (E : Engine) (page : PhotoPage) (wse : bool)
    (tempPath : string) (w : World) (k : string) :
  k ≠ tempPath →
  fs (snd (capture_date E page wse tempPath w)) !! k = fs w !! k.
Proof.
  intros Hk. unfold capture_date, exiftool_read, request_html, bind, emit, ret.
  cbn [log fs trace].
  destruct (fs w !! tempPath) as [f|]; [|reflexivity].
  destruct (_ && _); [|reflexivity].
  destruct (truthy_str _); [|reflexivity].
  destruct wse; [|reflexivity].
  match goal with
  | |- context [exiftool_write E tempPath ?d ?w0] =>
      pose proof (exiftool_write_frame E tempPath d w0 k Hk) as Hw;
      destruct (exiftool_write E tempPath d w0) as [[[]| |] w3]
  end; exact Hw.
Qed.

(** What the date resolution leaves behind on a stored asset: its last event
    is no move, and the asset is still at its path, as downloaded or with the
    tag that [exiftool.write] gave it. *)
Lemma capture_date_outcome (E : Engine) (page : PhotoPage) (wse : bool)
    (tempPath : string) (w : World) (f : File) :
  fs w !! tempPath = Some f →
  let r := capture_date E page wse tempPath w in
  (∀ s d ov ok, last (trace (snd r)) ≠ Some (MoveFile s d ov ok))
  ∧ ∃ f', fs (snd r) !! tempPath = Some f'
          ∧ (f' = f ∨ ∃ date, exif_write E f date = Some f').
Proof.
  intros Hf r. subst r. rewrite (capture_date_eq E page wse tempPath w f Hf).
  cbv zeta.
  destruct (_ && _).
  2:{ cbn [snd log trace fs]. split; [|now exists f; split; [|left]].
      intros s d ov ok. now rewrite last_snoc. }
  destruct (truthy_str _).
  2:{ cbn [snd log trace fs]. split; [|now exists f; split; [|left]].
      intros s d ov ok. now rewrite last_app_cons. }
  destruct wse.
  2:{ unfold bind, ret. cbn [snd log trace fs].
      split; [|now exists f; split; [|left]].
      intros s d ov ok. now rewrite last_app_cons. }
  set (date := new_Date E _). set (w2 := log w _).
  assert (Hf2 : fs w2 !! tempPath = Some f) by exact Hf.
  pose proof (exiftool_write_trace E tempPath date w2) as Ht.
  unfold bind, ret.
  assert (Hx : ∃ f', fs (snd (exiftool_write E tempPath date w2)) !! tempPath
                     = Some f'
                     ∧ (f' = f ∨ ∃ date, exif_write E f date = Some f')).
  { unfold exiftool_write, bind, emit. cbn [log fs trace]. rewrite Hf2.
    destruct (exif_write E f date) as [f'|] eqn:Hw; cbn [snd fs].
    - exists f'. rewrite lookup_insert_eq. split; [reflexivity|].
      right. now exists date.
    - exists f. now split; [|left]. }
  destruct (exiftool_write E tempPath date w2) as [[[]| |] w3];
    cbn [snd] in *; (split; [|exact Hx]);
    intros s d ov ok; now rewrite Ht, last_snoc.
Qed.


(** ** The run *)

Lemma log_log (w : World) (a b : list Event) : log (log w a) b = log w (a ++ b).
Proof. unfold log. cbn [fs trace]. now rewrite app_assoc. Qed.

(** The run up to the first download, once the session is authenticated and
    the newest photo is known. *)
Lemma backup_authenticated (E : Engine) (B : Browser) (o : Options)
    (startLink latest : string) (w : World) :
  URL_ok E startLink = true → home B = mainGooglePhotosUrl →
  activeElement_href B = Some latest → latest ≠ "" →
  let page := photoAt B (clean startLink) in
  backup E B o startLink w =
    (downloadPhoto E page (first_options o) ;;
     loop E o latest page (navigations B) ;;
     cleanup)%async
      (log w [Launch (sessionDirectory o) (headless o);
              Goto mainGooglePhotosUrl; KeyPress "ArrowRight";
              Goto (clean startLink)]).
Proof.
  intros Hu Hh Ha Hl page.
  assert (Ht : truthy_str (Some latest) = true).
  { cbn. now apply negb_true_iff, String.eqb_neq. }
  unfold backup, getLatestPhoto. rewrite Hu, Hh, Ha, String.eqb_refl.
  cbn [negb]. unfold bind at 1 2 3 4 5, emit, ret. rewrite Ht.
  cbn [negb default from_option id]. unfold bind at 1.
  now rewrite !log_log.
Qed.

Lemma getProgress_loaded (directory : string) (w : World) (f : File) :
  fs w !! lastdone directory = Some f → bytes f ≠ "" →
  getProgress directory w = (Normal (bytes f), w).
Proof.
  intros Hf Hb. unfold getProgress, bind, readFile. rewrite Hf.
  apply String.eqb_neq in Hb. now rewrite Hb.
Qed.

(** C3 (amended). When the checkpoint is present and the page it leads to
    canonicalises equal to the newest photo, the run downloads that one photo
    again (with [overwrite: true]) and then ends: no click, no second download,
    no checkpoint write. *)
Theorem resumed_at_latest (E : Engine) (B : Browser) (o : Options) (w : World)
    (f : File) (latest : string) :
  fs w !! lastdone (photoDirectory o) = Some f → bytes f ≠ "" →
  URL_ok E (bytes f) = true → home B = mainGooglePhotosUrl →
  activeElement_href B = Some latest → latest ≠ "" →
  let page := photoAt B (clean (bytes f)) in
  clean (url page) = clean latest →
  start E B o w =
    let '(r, w') :=
      downloadPhoto E page (first_options o)
        (log w [Launch (sessionDirectory o) (headless o);
                Goto mainGooglePhotosUrl; KeyPress "ArrowRight";
                Goto (clean (bytes f))]) in
    match r with
    | Normal _ => (Normal tt, log w' [BrowserClose; ExiftoolEnd])
    | Exit code => (Exit code, w')
    | Throw e => (Throw e, w')
    end.
Proof.
  intros Hf Hb Hu Hh Ha Hl page Hc.
  unfold start, bind at 1, try_catch.
  rewrite (getProgress_loaded _ _ _ Hf Hb).
  rewrite (backup_authenticated E B o (bytes f) latest w Hu Hh Ha Hl).
  fold page. unfold bind at 1.
  destruct (downloadPhoto E page (first_options o) _) as [[[]| |] w']; try reflexivity.
  unfold bind. rewrite loop_eq, Hc, String.eqb_refl. cbn [ret cleanup bind emit].
  unfold emit. now rewrite log_log.
Qed.

(** C8. The load fails exactly when the checkpoint file is missing or empty,
    and returns the content otherwise. When it fails without a seed URL the
    process exits with code 1 and nothing else has happened. When it fails
    with a seed URL and the photo directory is not the empty path, the
    checkpoint file is written with the seed and the run goes on from it: once
    authenticated, the browser is sent to the cleaned seed URL and the photo
    there is the first one downloaded. With the empty path as photo directory
    [mkdir] rejects: the run rejects with its error and nothing is written. *)
Theorem checkpoint_load (E : Engine) (B : Browser) (o : Options) (w : World) :
  let dir := photoDirectory o in
  let missing_or_empty :=
    fs w !! lastdone dir = None
    ∨ ∃ f, fs w !! lastdone dir = Some f ∧ bytes f = "" in
  ((∃ e, getProgress dir w = (Throw e, w)) ↔ missing_or_empty)
  ∧ (∀ f, fs w !! lastdone dir = Some f → bytes f ≠ "" →
          getProgress dir w = (Normal (bytes f), w))
  ∧ (missing_or_empty → truthy_str (initialPhotoUrl o) = false →
     start E B o w = (Exit 1, log w [ProcessExit 1]))
  ∧ (missing_or_empty → dir ≠ "" →
     ∀ seed, initialPhotoUrl o = Some seed → seed ≠ "" →
       let seeded :=
         {| fs := <[lastdone dir := {| bytes := seed; DateTimeOriginal := None |}]>
                    (fs w);
            trace := trace w ++ [WriteFile (lastdone dir) seed] |} in
       start E B o w = backup E B o seed seeded
       ∧ (URL_ok E seed = true → home B = mainGooglePhotosUrl →
          ∀ latest, activeElement_href B = Some latest → latest ≠ "" →
            start E B o w =
              (downloadPhoto E (photoAt B (clean seed)) (first_options o) ;;
               loop E o latest (photoAt B (clean seed)) (navigations B) ;;
               cleanup)%async
                (log seeded [Launch (sessionDirectory o) (headless o);
                             Goto mainGooglePhotosUrl; KeyPress "ArrowRight";
                             Goto (clean seed)])))
  ∧ (missing_or_empty → dir = "" →
     ∀ seed, initialPhotoUrl o = Some seed → seed ≠ "" →
       start E B o w = (Throw (ENOENT ""), w)).
Proof.
  intros dir missing_or_empty.
  assert (Hfail : missing_or_empty → ∃ e, getProgress dir w = (Throw e, w)).
  { unfold getProgress, bind, readFile.
    intros [-> | (f & -> & ->)]; [now exists (ENOENT (lastdone dir))|].
    now exists EmptyFile. }
  assert (Hseeding : missing_or_empty →
    start E B o w =
      match initialPhotoUrl o with
      | Some seed =>
          if String.eqb seed "" then (Exit 1, log w [ProcessExit 1])
          else if String.eqb dir "" then (Throw (ENOENT dir), w)
          else backup E B o seed
                 {| fs := <[lastdone dir :=
                              {| bytes := seed; DateTimeOriginal := None |}]>
                            (fs w);
                    trace := trace w ++ [WriteFile (lastdone dir) seed] |}
      | None => (Exit 1, log w [ProcessExit 1])
      end).
  { intros Hm. rewrite start_eq. cbv zeta. fold dir.
    destruct Hm as [-> | (f & -> & ->)]; reflexivity. }
  split; [split; [|exact Hfail]|split; [|split; [|split]]].
  - intros [e He]. unfold getProgress, bind, readFile in He.
    destruct (fs w !! lastdone dir) as [f|] eqn:Hf; [|now left].
    right. exists f. split; [reflexivity|].
    destruct (String.eqb_spec (bytes f) ""); [assumption | discriminate].
  - intros f Hf Hb. now apply getProgress_loaded.
  - intros Hm Hs. rewrite (Hseeding Hm).
    destruct (initialPhotoUrl o) as [seed|]; [|reflexivity].
    cbn in Hs. apply negb_false_iff in Hs. now rewrite Hs.
  - intros Hm Hd seed Hs Hne seeded.
    assert (Hstart : start E B o w = backup E B o seed seeded).
    { rewrite (Hseeding Hm), Hs.
      apply String.eqb_neq in Hne, Hd. now rewrite Hne, Hd. }
    split; [exact Hstart|]. intros Hu Hh latest Ha Hl.
    rewrite Hstart. now apply backup_authenticated.
  - intros Hm Hd seed Hs Hne. rewrite (Hseeding Hm), Hs, Hd.
    apply String.eqb_neq in Hne. now rewrite Hne.
Qed.

(** ** The fatal paths *)

(** Redirected away from the library: both resources are closed before the
    exit. *)
Lemma backup_redirected (E : Engine) (B : Browser) (o : Options)
    (startLink : string) (w : World) :
  URL_ok E startLink = true → home B ≠ mainGooglePhotosUrl →
  backup E B o startLink w =
    (Exit 1, log w [Launch (sessionDirectory o) (headless o);
                    Goto mainGooglePhotosUrl;
                    BrowserClose; ExiftoolEnd; ProcessExit 1]).
Proof.
  intros Hu Hh. unfold backup. rewrite Hu.
  apply String.eqb_neq in Hh. rewrite Hh.
  unfold cleanup, bind, emit, ret, process_exit. cbn [negb].
  now rewrite !log_log.
Qed.

(** No visible previous-photo control before the newest photo is reached: the
    exit is the only action. *)
Lemma loop_no_previous (E : Engine) (o : Options) (latestPhoto : string)
    (page : PhotoPage) (states : list PhotoPage) (w : World) :
  clean (url page) ≠ clean latestPhoto →
  isVisible (prev_arrows page) = false →
  loop E o latestPhoto page states w = (Exit 1, log w [ProcessExit 1]).
Proof.
  intros Hl Hv. rewrite loop_eq. apply String.eqb_neq in Hl. rewrite Hl.
  unfold bind, evaluate_click, click_previous. now rewrite Hv.
Qed.

(** A download without a path: the exit directly follows the download. *)
Lemma downloadPhoto_no_path (E : Engine) (page : PhotoPage)
    (o : DownloadOptions) (dl : Download) (w : World) :
  download page = Some dl → truthy_str (dl_path dl) = false →
  downloadPhoto E page o w =
    (Exit 1, log (snd (shiftD page w)) [ProcessExit 1]).
Proof.
  intros Hd Ht. pose proof (shiftD_download page dl w Hd) as Hs.
  unfold downloadPhoto, bind.
  destruct (shiftD page w) as [r w0]; cbn [fst snd] in *. subst r.
  now rewrite Ht.
Qed.

(** ** The placement policy *)

(** The destination with and without the flat structure, and the policy that
    each of the two calls of [downloadPhoto] selects. *)
Lemma placement_policy (o : Options) (y m : JsNum) (name : string) :
  destDir (photoDirectory o) true y m name = path.join [photoDirectory o; name]
  ∧ destDir (photoDirectory o) false y m name =
    path.join [photoDirectory o; js_template y; js_template m; name]
  ∧ default false (o_flatDirectoryStructure (first_options o)) =
    flatDirectoryStructure o
  ∧ default false (o_flatDirectoryStructure (loop_options o)) = false.
Proof. repeat split. Qed.

(** ** The runs and the theorems at concrete inputs *)

Import Reference.

Lemma collision_run_trace :
  trace (snd collision_run) =
  [Launch "./session" true; Goto "https://photos.google.com/";
   KeyPress "ArrowRight"; Goto urlA;
   KeyDown "Shift"; KeyPress "KeyD"; ExifRead "/tmp/dl/a";
   MoveFile "/tmp/dl/a" "download/2020/1/IMG_0001.jpg" (Some true) true;
   Click 0%nat;
   KeyDown "Shift"; KeyPress "KeyD"; ExifRead "/tmp/dl/b";
   MoveFile "/tmp/dl/b" "download/2020/1/IMG_0001.jpg" (Some false) false;
   WriteFile "download/.lastdone" urlB;
   BrowserClose; ExiftoolEnd].
Proof. vm_compute. reflexivity. Qed.


(** C1 (counterexample). In the run over two photos with the same name and
    month the move of the second photo fails, and the checkpoint is written
    with that photo's URL all the same. *)
Lemma checkpoint_written_after_failed_move :
  ¬ checkpoint_after_placement (trace (snd collision_run)).
Proof.
  rewrite collision_run_trace. intros H.
  destruct (H 12%nat "download/.lastdone" urlB eq_refl) as (s & d & ov & Hm).
  discriminate Hm.
Qed.

(** C1 (amended), at the run with the name collision: the checkpoint write at
    position 13 follows the rejected move at position 12, and the closing of
    the browser follows it. *)
Lemma checkpoint_after_move_attempt_collision :
  (∃ s d ok page dl,
      trace (snd collision_run) !! 12%nat = Some (MoveFile s d (Some false) ok)
      ∧ "download/.lastdone" = lastdone "./download"
      ∧ page ∈ [photoB] ∧ urlB = url page
      ∧ download page = Some dl ∧ dl_path dl = Some s)
  ∧ (∀ e, trace (snd collision_run) !! 14%nat = Some e → is_advance e = true).
Proof.
  apply (checkpoint_after_move_attempt engine (library photoA urlB [photoB])
           (options false None) resumed 12 "download/.lastdone" urlB).
  vm_compute. reflexivity.
Defined.


(** C3 (counterexample). With the checkpoint at the newest photo the run
    still triggers one download. *)
Lemma uptodate_run_downloads : ¬ no_download (trace (snd uptodate_run)).
Proof.
  intros H. apply (H (KeyPress "KeyD")); [|reflexivity].
  vm_compute. do 5 right. left.
Qed.

(** C4 (the code at the failing input). With the flat directory structure
    selected, the first photo goes to the photo directory itself and the
    second one to its year and month directory. *)
Theorem flat_run_nests_second_photo :
  (MoveFile "/tmp/dl/a" "download/IMG_0001.jpg" (Some true) true
     ∈ trace (snd flat_run))
  ∧ (MoveFile "/tmp/dl/c" "download/2021/3/IMG_0002.jpg" (Some false) true
       ∈ trace (snd flat_run))
  ∧ fs (snd flat_run) !! "download/2021/3/IMG_0002.jpg" = Some (jpeg "third" 2021 3)
  ∧ fs (snd flat_run) !! "download/IMG_0002.jpg" = None.
Proof.
  repeat split; try (vm_compute; reflexivity).
  - vm_compute. do 7 right. left.
  - vm_compute. do 12 right. left.
Qed.

(** C5 (the code at the failing inputs). When no previous-photo control is
    visible, and when the download has no path, the process exits with code 1
    and neither the browser nor exiftool has been closed. *)
Theorem exit_without_cleanup :
  (fst no_arrow_run = Exit 1
   ∧ (BrowserClose ∉ trace (snd no_arrow_run))
   ∧ (ExiftoolEnd ∉ trace (snd no_arrow_run)))
  ∧ (fst no_path_run = Exit 1
     ∧ (BrowserClose ∉ trace (snd no_path_run))
     ∧ (ExiftoolEnd ∉ trace (snd no_path_run))).
Proof.
  repeat split; try (vm_compute; reflexivity).
  all: intros H; vm_compute in H;
    repeat (apply elem_of_cons in H as [H | H]; [discriminate|]);
    inversion H.
Qed.



(** C3 (amended), at the run whose checkpoint is the newest photo. *)
Lemma resumed_at_latest_uptodate :
  uptodate_run =
    (Normal tt,
     log (snd (downloadPhoto engine photoA (first_options (options false None))
                 (log (init resumed)
                    [Launch "./session" true; Goto mainGooglePhotosUrl;
                     KeyPress "ArrowRight"; Goto urlA])))
         [BrowserClose; ExiftoolEnd]).
Proof.
  unfold uptodate_run.
  rewrite (resumed_at_latest engine (library photoA urlA [])
             (options false None) (init resumed)
             {| bytes := urlA; DateTimeOriginal := None |} urlA).
  - vm_compute. reflexivity.
  - vm_compute. reflexivity.
  - discriminate.
  - reflexivity.
  - reflexivity.
  - reflexivity.
  - discriminate.
  - reflexivity.
Defined.

(** C8, at a run with no checkpoint file and a seed URL. *)
Lemma checkpoint_load_seeded :
  start engine (library photoA urlA []) (options false (Some urlA)) (init ∅) =
  backup engine (library photoA urlA []) (options false (Some urlA)) urlA
    {| fs := {[ "download/.lastdone" :=
                  {| bytes := urlA; DateTimeOriginal := None |} ]};
       trace := [WriteFile "download/.lastdone" urlA] |}.
Proof.
  destruct (checkpoint_load engine (library photoA urlA [])
              (options false (Some urlA)) (init ∅)) as (_ & _ & _ & H & _).
  apply (H (or_introl eq_refl) ltac:(discriminate) urlA eq_refl
           ltac:(discriminate)).
Defined.

(** C6 (counterexample). The markup of [photoE] contains the caption of
    January 2020 after a caption of March 2019: the pattern matches the
    earlier one and the resolved date is (2019, 3). *)
Lemma earlier_caption_wins :
  (∃ pre post, html photoE = pre +:+ label_jan_5_2020 +:+ post)
  ∧ capture_date engine photoE false "/tmp/dl/e"
      (init {[ "/tmp/dl/e" := untagged ]}) =
    (Normal (Num 2019, Num 3),
     log (init {[ "/tmp/dl/e" := untagged ]})
         [ExifRead "/tmp/dl/e"; RequestGet urlB]).
Proof.
  split.
  - exists ("<a aria-label=" +:+ String dquote "Video - Mar 3, 2019"
            +:+ String dquote "></a><a "), "></a>".
    reflexivity.
  - vm_compute. reflexivity.
Qed.

(** C6 (amended), at an untagged asset on a page that carries the caption. *)
Lemma capture_date_resolution_photoD :
  fst (capture_date engine photoD false "/tmp/dl/d"
         (init {[ "/tmp/dl/d" := untagged ]})) = Normal (Num 2020, Num 1).
Proof.
  destruct (capture_date_resolution engine photoD false "/tmp/dl/d"
              (init {[ "/tmp/dl/d" := untagged ]}) untagged) as [H _];
    [vm_compute; reflexivity|].
  destruct (H eq_refl eq_refl) as [H1 _].
  apply (H1 "<div " "></div>" 1578182400000).
  - reflexivity.
  - vm_compute. reflexivity.
  - vm_compute. reflexivity.
  - discriminate.
Defined.

(** C10, at a tag with year 2015 and no month. *)
Lemma fallback_exactly_on_sentinel_2015 :
  let f := {| bytes := "raw";
              DateTimeOriginal :=
                Some (TagDateTime {| year := Num 2015; month := undefined |}) |} in
  let w := init {[ "/tmp/dl/d" := f ]} in
  capture_date engine photoD false "/tmp/dl/d" w =
    (Normal (Num 2015, Num 1), log w [ExifRead "/tmp/dl/d"]).
Proof.
  intros f w.
  destruct (fallback_exactly_on_sentinel engine photoD false "/tmp/dl/d" w f)
    as (_ & _ & H); [vm_compute; reflexivity|].
  apply (H 2015 undefined); [reflexivity | lia | lia | reflexivity].
Defined.

(** * Further properties of the code *)

(** ** The checkpoint store *)

(** X1. For a photo directory other than the empty path, what
    [saveProgress] wrote is what [getProgress] reads back, unless it is the
    empty string, which reads back as the empty-file error; the write replaces
    an earlier checkpoint and touches no other file. With the empty path
    [saveProgress] rejects at [mkdir] and writes nothing. *)
Theorem saveProgress_getProgress (dir u : string) (w : World) :
  let w' := snd (saveProgress dir u w) in
  (dir ≠ "" →
   (u ≠ "" → getProgress dir w' = (Normal u, w'))
   ∧ (u = "" → getProgress dir w' = (Throw EmptyFile, w'))
   ∧ (∀ k, k ≠ lastdone dir → fs w' !! k = fs w !! k)
   ∧ (∀ u0, fs (snd (saveProgress dir u (snd (saveProgress dir u0 w)))) = fs w'))
  ∧ (dir = "" → saveProgress dir u w = (Throw (ENOENT ""), w)).
Proof.
  cbv zeta. split.
  - intros Hd. apply String.eqb_neq in Hd.
    rewrite !saveProgress_eq, Hd. cbn [fst snd fs].
    repeat split.
    + intros Hu. unfold getProgress, bind, readFile. cbn [fs].
      rewrite lookup_insert_eq. cbn [bytes].
      apply String.eqb_neq in Hu. now rewrite Hu.
    + intros ->. unfold getProgress, bind, readFile. cbn [fs].
      now rewrite lookup_insert_eq.
    + intros k Hk. now apply lookup_insert_ne.
    + intros u0. rewrite !saveProgress_eq, !Hd. cbn [snd fs].
      apply insert_insert_eq.
  - intros ->. now rewrite saveProgress_eq.
Qed.

(** X1 at a concrete directory and URL. *)
Lemma saveProgress_getProgress_urlB :
  getProgress "./download"
    (snd (saveProgress "./download" urlB (init resumed))) =
  (Normal urlB, snd (saveProgress "./download" urlB (init resumed))).
Proof.
  apply (saveProgress_getProgress "./download" urlB (init resumed));
    discriminate.
Defined.

(** ** [clean] *)

Lemma digits_then_slash_shorter (seen : bool) (s r : string) :
  digits_then_slash seen s = Some r →
  (String.length r + (if seen then 1 else 2) ≤ String.length s)%nat.
Proof.
  revert seen. induction s as [|c s IH]; intros seen H; [discriminate|].
  cbn [digits_then_slash] in H. destruct (is_digit c).
  - apply IH in H. cbn in *. destruct seen; lia.
  - destruct seen; [|discriminate]. cbn [andb] in H.
    destruct (Ascii.eqb c "/"); [|discriminate]. injection H as ->. cbn. lia.
Qed.

Lemma account_segment_at_shorter (s r : string) :
  account_segment_at s = Some r → (String.length r + 5 ≤ String.length s)%nat.
Proof.
  unfold account_segment_at. intros H.
  destruct (strip_prefix "/u/" s) as [s'|] eqn:Hs; [|discriminate].
  apply strip_prefix_length in Hs. apply digits_then_slash_shorter in H.
  cbn in Hs. lia.
Qed.

Lemma clean_length (s : string) :
  (String.length (clean s) ≤ String.length s)%nat
  ∧ (has_account_segment s = true →
     String.length (clean s) + 4 ≤ String.length s)%nat.
Proof.
  induction s as [|c s [IH1 IH2]]; [split; [reflexivity | discriminate]|].
  rewrite clean_unfold, has_account_segment_unfold.
  destruct (account_segment_at (String c s)) as [r|] eqn:Ha.
  - apply account_segment_at_shorter in Ha. cbn in *. split; lia.
  - cbn. split; [lia|]. intros H. apply IH2 in H. lia.
Qed.

(** X2. [clean] leaves a link unchanged exactly when the link holds no
    account segment; it never makes a link longer, and a link that holds a
    segment gets shorter by at least four characters. *)
Theorem clean_fixed_points (s : string) :
  (clean s = s ↔ has_account_segment s = false)
  ∧ (String.length (clean s) ≤ String.length s)%nat
  ∧ (has_account_segment s = true →
     String.length (clean s) + 4 ≤ String.length s)%nat.
Proof.
  destruct (clean_length s) as [H1 H2]. repeat split; try assumption.
  - intros Hc. destruct (has_account_segment s) eqn:Hs; [|reflexivity].
    specialize (H2 eq_refl). rewrite Hc in H2. lia.
  - apply clean_canonical.
Qed.

(** X2 at a link with an account segment. *)
Lemma clean_fixed_points_u0 :
  (String.length (clean "https://photos.google.com/u/0/photo/A") + 4
   ≤ String.length "https://photos.google.com/u/0/photo/A")%nat.
Proof.
  apply (clean_fixed_points "https://photos.google.com/u/0/photo/A").
  reflexivity.
Defined.

Lemma digits_then_slash_opened (pre rest : string) (seen : bool) :
  digits_then_slash seen (pre +:+ "/") = None →
  digits_then_slash seen (pre +:+ "/u/" +:+ rest) = None.
Proof.
  revert seen. induction pre as [|c pre IH]; intros seen H.
  - simpl in *. destruct seen; [discriminate | reflexivity].
  - simpl in *. destruct (is_digit c); [now apply IH|].
    destruct (seen && Ascii.eqb c "/"); [discriminate | reflexivity].
Qed.

Lemma account_segment_at_opened (pre rest : string) :
  pre ≠ "" →
  account_segment_at (pre +:+ "/") = None →
  account_segment_at (pre +:+ "/u/" +:+ rest) = None.
Proof.
  unfold account_segment_at. intros Hne H.
  destruct pre as [|c1 [|c2 [|c3 pre]]]; [congruence | | |]; simpl in *.
  - destruct (Ascii.eqb "/" c1); reflexivity.
  - destruct (Ascii.eqb "/" c1); [|reflexivity].
    destruct (Ascii.eqb "u" c2); reflexivity.
  - destruct (Ascii.eqb "/" c1); [|reflexivity].
    destruct (Ascii.eqb "u" c2); [|reflexivity].
    destruct (Ascii.eqb "/" c3); [|reflexivity].
    now apply digits_then_slash_opened.
Qed.

(** X3. [clean] removes the leftmost account segment and nothing else: what
    follows the segment is kept as it is, further account segments included,
    so one call does not canonicalise a link that holds two. *)
Theorem clean_leftmost_only (pre ds post : string) :
  ds ≠ "" → all_digits ds = true →
  has_account_segment (pre +:+ "/") = false →
  clean (pre +:+ "/u/" +:+ ds +:+ "/" +:+ post) = pre +:+ "/" +:+ post.
Proof.
  intros Hne Hd. induction pre as [|c pre IH]; intros H.
  - change (clean ("/u/" +:+ ds +:+ "/" +:+ post) = String "/" post).
    rewrite clean_unfold.
    assert (Hm : account_segment_at ("/u/" +:+ ds +:+ "/" +:+ post) = Some post).
    { unfold account_segment_at.
      change (strip_prefix "/u/" ("/u/" +:+ ds +:+ "/" +:+ post))
        with (Some (ds +:+ "/" +:+ post)).
      apply digits_then_slash_run; [exact Hd | now right]. }
    now rewrite Hm.
  - change (has_account_segment (String c (pre +:+ "/")) = false) in H.
    rewrite has_account_segment_unfold in H.
    destruct (account_segment_at (String c (pre +:+ "/"))) eqn:Ha;
      [discriminate|].
    pose proof (account_segment_at_opened (String c pre)
                  (ds +:+ "/" +:+ post) ltac:(discriminate) Ha) as Hi.
    change (account_segment_at
              (String c (pre +:+ "/u/" +:+ ds +:+ "/" +:+ post)) = None) in Hi.
    change (clean (String c (pre +:+ "/u/" +:+ ds +:+ "/" +:+ post)) =
            String c (pre +:+ "/" +:+ post)).
    rewrite clean_unfold, Hi. now rewrite IH.
Qed.

(** X3 at a link with two account segments: the second one stays. *)
Lemma clean_leftmost_only_twice :
  clean "https://host/u/1/u/2/photo/abc" = "https://host/u/2/photo/abc".
Proof.
  apply (clean_leftmost_only "https://host" "1" "u/2/photo/abc").
  - discriminate.
  - reflexivity.
  - reflexivity.
Defined.

(** ** The callback of [page.evaluate] *)

(** X4. When the callback of [page.evaluate] clicks, it clicks an element
    that exists and reports [true]; when it clicks nothing, it reports [false]
    and no element is visible. *)
Theorem click_previous_in_range (elements : list bool) :
  match click_previous elements with
  | (clicked, Some i) => clicked = true ∧ is_Some (elements !! i)
  | (clicked, None) => clicked = false ∧ ∀ e, e ∈ elements → e = false
  end.
Proof.
  unfold click_previous. destruct (isVisible elements) eqn:Hv; cbn [negb].
  - split; [reflexivity|]. destruct elements; [discriminate | now eexists].
  - split; [reflexivity|]. now apply isVisible_false.
Qed.


(** ** The accessibility-label pattern *)

(** Whether the second and third byte of the en dash open [s]. *)
Lemma at_dash_cons (c : ascii) (s : string) :
  at_dash (String c s) =
  Ascii.eqb "-" c
  || Ascii.eqb "226" c
     && match strip_prefix (String "128" (String "147" EmptyString)) s with
        | Some _ => true
        | None => false
        end.
Proof.
  unfold at_dash, strip_dash. cbn [strip_prefix en_dash].
  destruct (Ascii.eqb "-" c); [reflexivity|].
  destruct (Ascii.eqb "226" c); reflexivity.
Qed.

(** What can follow a segment: a quote, or a dash. *)
Lemma delimiter_head (c : ascii) (rest : string) :
  Ascii.eqb c dquote || at_dash (String c rest) = true →
  Ascii.eqb "128" c = false ∧ Ascii.eqb "147" c = false.
Proof.
  rewrite at_dash_cons. intros H.
  apply orb_prop in H as [H|H]; [apply Ascii.eqb_eq in H as ->; now split|].
  apply orb_prop in H as [H|H]; [apply Ascii.eqb_eq in H as <-; now split|].
  apply andb_prop in H as [H _]. apply Ascii.eqb_eq in H as <-. now split.
Qed.

(** No dash starts in a text across its end, when a quote or a dash
    follows. *)
Lemma at_dash_extend (c : ascii) (a rest : string) :
  at_dash (String c a) = false →
  match rest with
  | EmptyString => True
  | String r _ => Ascii.eqb r dquote || at_dash rest = true
  end →
  at_dash (String c (a +:+ rest)) = false.
Proof.
  rewrite !at_dash_cons. intros H Hr.
  apply orb_false_elim in H as [-> H]. cbn [orb].
  destruct (Ascii.eqb "226" c); [|reflexivity]. cbn [andb] in *.
  destruct a as [|c2 a].
  - change ("" +:+ rest) with rest. destruct rest as [|r rest]; [reflexivity|].
    apply delimiter_head in Hr as [Hr _]. cbn [strip_prefix]. now rewrite Hr.
  - change (String c2 a +:+ rest) with (String c2 (a +:+ rest)).
    cbn [strip_prefix] in *. destruct (Ascii.eqb "128" c2); [|reflexivity].
    destruct a as [|c3 a].
    + change ("" +:+ rest) with rest. destruct rest as [|r rest]; [reflexivity|].
      apply delimiter_head in Hr as [_ Hr]. now rewrite Hr.
    + change (String c3 a +:+ rest) with (String c3 (a +:+ rest)).
      cbn [strip_prefix].
      destruct (Ascii.eqb "147" c3); [discriminate | reflexivity].
Qed.

(** The greedy run takes a plain text whole and stops at what follows it. *)
Lemma date_text_plain (a rest : string) :
  plain a = true →
  match rest with
  | EmptyString => True
  | String c _ => Ascii.eqb c dquote || at_dash rest = true
  end →
  date_text (a +:+ rest) = (a, rest).
Proof.
  intros Ha Hr. induction a as [|c a IH].
  - destruct rest as [|c rest]; [reflexivity|].
    change (date_text (String c rest) = (EmptyString, String c rest)).
    cbn [date_text]. now rewrite Hr.
  - cbn [plain] in Ha. apply andb_prop in Ha as [Hc Ha].
    apply negb_true_iff, orb_false_elim in Hc as [Hq Hd].
    change (date_text (String c (a +:+ rest)) = (String c a, rest)).
    cbn [date_text].
    rewrite Hq, (at_dash_extend c a rest Hd Hr). cbn [orb].
    now rewrite (IH Ha).
Qed.

Lemma strip_dash_dashed (en : bool) (s : string) :
  strip_dash ((if en then en_dash else "-") +:+ s) = Some s.
Proof. destruct en; reflexivity. Qed.

Lemma dashed_head (segs : list (bool * string)) (tail : string) :
  segs ≠ [] →
  match dashed segs +:+ tail with
  | EmptyString => False
  | String c _ => Ascii.eqb c dquote = false ∧ at_dash (dashed segs +:+ tail) = true
  end.
Proof.
  destruct segs as [|[en text] segs]; [congruence|]. intros _.
  destruct en; cbn; split; reflexivity.
Qed.

Lemma append_assoc (a b c : string) : (a +:+ b) +:+ c = a +:+ (b +:+ c).
Proof.
  induction a as [|x a IH]; [reflexivity|].
  change (String x ((a +:+ b) +:+ c) = String x (a +:+ (b +:+ c))).
  now rewrite IH.
Qed.

Lemma length_append (a b : string) :
  String.length (a +:+ b) = (String.length a + String.length b)%nat.
Proof.
  induction a as [|x a IH]; [reflexivity|].
  change (S (String.length (a +:+ b)) = S (String.length a + String.length b)).
  now rewrite IH.
Qed.

(** The repeated group on well-formed segments: the last one is captured. *)
Lemma date_groups_dashed (segs : list (bool * string)) (en : bool)
    (text post : string) (n : nat) :
  Forall (λ seg, plain (snd seg) = true ∧ snd seg ≠ "") (segs ++ [(en, text)]) →
  (String.length (dashed (segs ++ [(en, text)]) +:+ String dquote post) ≤ n)%nat →
  date_groups n (dashed (segs ++ [(en, text)]) +:+ String dquote post) = Some text.
Proof.
  revert n. induction segs as [|[en0 a] segs IH]; intros n Hall Hn.
  - cbn [app dashed] in *. apply Forall_inv in Hall as [Hp Hne]. cbn [snd] in *.
    rewrite !append_assoc in *.
    destruct n as [|n].
    { rewrite length_append in Hn. destruct en; cbn in Hn; lia. }
    cbn [date_groups]. rewrite strip_dash_dashed. cbn [mbind option_bind].
    change (strip_prefix " " (" " +:+ text +:+ "" +:+ String dquote post))
      with (Some (text +:+ "" +:+ String dquote post)).
    cbn [mbind option_bind].
    change (text +:+ "" +:+ String dquote post)
      with (text +:+ String dquote post).
    rewrite (date_text_plain text (String dquote post) Hp)
      by (cbn; now rewrite Ascii.eqb_refl).
    apply String.eqb_neq in Hne. rewrite Hne. now rewrite Ascii.eqb_refl.
  - cbn [app dashed] in *. pose proof Hall as Hall'.
    apply Forall_inv in Hall as [Hp Hne]. apply Forall_inv_tail in Hall'.
    cbn [snd] in *. rewrite !append_assoc in *.
    destruct n as [|n].
    { rewrite length_append in Hn. destruct en0; cbn in Hn; lia. }
    cbn [date_groups]. rewrite strip_dash_dashed. cbn [mbind option_bind].
    set (tail := dashed (segs ++ [(en, text)]) +:+ String dquote post) in *.
    change (strip_prefix " " (" " +:+ a +:+ tail)) with (Some (a +:+ tail)).
    cbn [mbind option_bind].
    pose proof (dashed_head (segs ++ [(en, text)]) (String dquote post)
                  ltac:(now destruct segs)) as Hh.
    fold tail in Hh. destruct tail as [|c tail'] eqn:Ht; [contradiction|].
    destruct Hh as [Hq Hd].
    rewrite (date_text_plain a (String c tail') Hp) by (now rewrite Hd, orb_true_r).
    apply String.eqb_neq in Hne. rewrite Hne, Hq.
    apply IH; [exact Hall'|].
    rewrite !length_append in Hn.
    destruct en0; cbn in Hn |- *; lia.
Qed.

(** X6. For a caption of a photo or a video whose dash-delimited segments
    are non-empty and hold no quote, no hyphen and no en dash, found as the
    leftmost match in the markup, the pattern yields the last segment,
    whether the dashes are hyphens or en dashes. *)
Theorem aria_label_last_segment (pre post kind text : string)
    (segs : list (bool * string)) (en : bool) :
  kind = "Photo" ∨ kind = "Video" →
  Forall (λ seg, plain (snd seg) = true ∧ snd seg ≠ "") (segs ++ [(en, text)]) →
  matches_before (String.length pre)
    (pre +:+ caption kind (segs ++ [(en, text)]) +:+ post) = false →
  aria_label_exec (pre +:+ caption kind (segs ++ [(en, text)]) +:+ post)
  = Some text.
Proof.
  intros Hk Hall Hb. rewrite (aria_label_exec_skip _ _ Hb), aria_label_exec_unfold.
  assert (Hat : aria_label_at (caption kind (segs ++ [(en, text)]) +:+ post)
                = Some text).
  { unfold aria_label_at, caption. rewrite !append_assoc.
    set (body := dashed (segs ++ [(en, text)]) +:+ String dquote "" +:+ post).
    assert (Hbody : body = dashed (segs ++ [(en, text)]) +:+ String dquote post)
      by reflexivity.
    destruct Hk as [-> | ->].
    - change (strip_prefix ("aria-label=" +:+ String dquote "")
                ("aria-label=" +:+ String dquote "Photo" +:+ " " +:+ body))
        with (Some ("Photo" +:+ " " +:+ body)).
      cbn [mbind option_bind].
      change (strip_prefix "Photo" ("Photo" +:+ " " +:+ body))
        with (Some (" " +:+ body)).
      cbn [mbind option_bind].
      change (strip_prefix " " (" " +:+ body)) with (Some body).
      cbn [mbind option_bind]. rewrite Hbody.
      now apply date_groups_dashed.
    - change (strip_prefix ("aria-label=" +:+ String dquote "")
                ("aria-label=" +:+ String dquote "Video" +:+ " " +:+ body))
        with (Some ("Video" +:+ " " +:+ body)).
      cbn [mbind option_bind].
      change (strip_prefix "Photo" ("Video" +:+ " " +:+ body)) with (@None string).
      change (strip_prefix "Video" ("Video" +:+ " " +:+ body))
        with (Some (" " +:+ body)).
      cbn [mbind option_bind].
      change (strip_prefix " " (" " +:+ body)) with (Some body).
      cbn [mbind option_bind]. rewrite Hbody.
      now apply date_groups_dashed. }
  now rewrite Hat.
Qed.

(** X6 at a caption with a place name between the kind and the date, and a
    narrow no-break space in the date. *)
Lemma aria_label_last_segment_landscape :
  aria_label_exec
    ("<a " +:+ caption "Video"
               [(true, "Landscape ");
                (false, "Feb 1, 2019, 3:15:20" +:+ nnbsp +:+ "PM")]
     +:+ "></a>")
  = Some ("Feb 1, 2019, 3:15:20" +:+ nnbsp +:+ "PM").
Proof.
  apply (aria_label_last_segment "<a " "></a>" "Video"
           ("Feb 1, 2019, 3:15:20" +:+ nnbsp +:+ "PM")
           [(true, "Landscape ")] false).
  - now right.
  - repeat constructor; discriminate.
  - vm_compute. reflexivity.
Defined.

Lemma date_groups_captured (n : nat) (s t : string) :
  date_groups n s = Some t → t ≠ "".
Proof.
  revert s. induction n as [|n IH]; intros s H; [discriminate|].
  cbn [date_groups] in H.
  destruct (strip_dash s) as [s1|]; [|discriminate]. cbn [mbind option_bind] in H.
  destruct (strip_prefix " " s1) as [s2|]; [|discriminate].
  cbn [mbind option_bind] in H.
  destruct (date_text s2) as [text rest].
  destruct (String.eqb_spec text ""); [discriminate|].
  destruct rest as [|c rest]; [discriminate|].
  destruct (Ascii.eqb c dquote); [congruence | now apply IH in H].
Qed.

Lemma aria_label_exec_captured (html t : string) :
  aria_label_exec html = Some t → t ≠ "".
Proof.
  induction html as [|c html IH]; rewrite aria_label_exec_unfold.
  - unfold aria_label_at. cbn. discriminate.
  - destruct (aria_label_at (String c html)) as [m|] eqn:Hm; [|exact IH].
    intros [= <-]. unfold aria_label_at in Hm.
    destruct (strip_prefix _ _) as [s1|]; [|discriminate].
    cbn [mbind option_bind] in Hm.
    destruct (match strip_prefix "Photo" s1 with
              | Some r => Some r
              | None => strip_prefix "Video" s1
              end) as [s2|]; [|discriminate].
    cbn [mbind option_bind] in Hm.
    destruct (strip_prefix " " s2) as [s3|]; [|discriminate].
    cbn [mbind option_bind] in Hm. now apply date_groups_captured in Hm.
Qed.

(** The two variants test the match differently and resolve the same date. *)
Lemma capture_date_variants (E : Engine) (page : PhotoPage) (wse : bool)
    (tempPath : string) (w : World) :
  Legacy.capture_date E page wse tempPath w = capture_date E page wse tempPath w.
Proof.
  unfold Legacy.capture_date, capture_date.
  apply bind_ext. intros metadata w1.
  destruct (_ && _); [|reflexivity].
  apply bind_ext. intros html w2.
  destruct (aria_label_exec html) as [t|] eqn:Hx; [|reflexivity].
  apply aria_label_exec_captured in Hx. apply String.eqb_neq in Hx.
  cbn [truthy_str default from_option id]. now rewrite Hx.
Qed.

(** X7. A match of the pattern never captures an empty text, so the test
    [if (lastMatch)] of the current variant and the test [if (match)] of the
    legacy variant decide alike: both variants resolve the same year and month
    and leave the same files and events. *)
Theorem capture_date_same_in_both_variants (E : Engine) (page : PhotoPage)
    (wse : bool) (tempPath : string) (w : World) :
  (∀ t, aria_label_exec (html page) = Some t → t ≠ "")
  ∧ Legacy.capture_date E page wse tempPath w
    = capture_date E page wse tempPath w.
Proof.
  split; [intros t; apply aria_label_exec_captured | apply capture_date_variants].
Qed.

(** ** Placement: the files that a download touches *)

Lemma moveFile_keeps (source destination : string) (w : World)
    (k : string) (f0 : File) :
  k ≠ source → fs w !! k = Some f0 →
  fs (snd (moveFile source destination (Some false) w)) !! k = Some f0.
Proof.
  intros Hk Hf. unfold moveFile. cbn [default from_option id negb andb].
  destruct (pathExists destination (fs w)) eqn:Hx; [exact Hf|].
  destruct (fs w !! source) as [f|]; [|exact Hf]. cbn [snd fs].
  assert (k ≠ destination).
  { intros ->. unfold pathExists in Hx. now rewrite Hf in Hx. }
  now rewrite lookup_insert_ne, lookup_delete_ne.
Qed.

(** X8. With [overwrite] false or omitted, as in the loop, [downloadPhoto]
    changes and removes no file that existed before the call, whatever the
    way it ends; only the path of the download itself is excepted. *)
Theorem downloadPhoto_keeps_existing_files (E : Engine) (page : PhotoPage)
    (o : DownloadOptions) (w : World) (k : string) (f0 : File) :
  default false (o_overwrite o) = false →
  (∀ dl, download page = Some dl → dl_path dl ≠ Some k) →
  fs w !! k = Some f0 →
  fs (snd (downloadPhoto E page o w)) !! k = Some f0.
Proof.
  intros Hov Hk Hf. pose proof (shiftD_frame page w k Hk) as H1.
  unfold downloadPhoto, bind.
  destruct (shiftD page w) as [[dl| |] w1] eqn:Hs; cbn [snd] in *;
    [|now rewrite H1..].
  apply shiftD_normal in Hs. specialize (Hk dl Hs).
  destruct (dl_path dl) as [tempPath|] eqn:Hp; [|cbn; now rewrite H1].
  destruct (negb (truthy_str (Some tempPath))); [cbn; now rewrite H1|].
  cbn [default from_option id].
  assert (Hkt : k ≠ tempPath) by congruence.
  pose proof (capture_date_frame E page (default false (o_writeScrapedExif o))
                tempPath w1 k Hkt) as H2.
  destruct (capture_date _ _ _ _ w1) as [[[y m]| |] w2]; cbn [snd] in *;
    [|now rewrite H2, H1..].
  rewrite Hov. set (dest := destDir _ _ _ _ _).
  assert (Hf2 : fs w2 !! k = Some f0) by now rewrite H2, H1.
  pose proof (moveFile_keeps tempPath dest w2 k f0 Hkt Hf2) as H3.
  unfold try_catch, ret.
  destruct (moveFile tempPath dest (Some false) w2) as [[[]| |] w3]; exact H3.
Qed.

(** X8, at the second photo of the run with the name collision: the file of
    the first photo is kept. *)
Lemma downloadPhoto_keeps_existing_files_collision :
  fs (snd (downloadPhoto engine photoB (loop_options (options false None))
             (init {[ "download/2020/1/IMG_0001.jpg" := jpeg "first" 2020 1 ]})))
    !! "download/2020/1/IMG_0001.jpg" = Some (jpeg "first" 2020 1).
Proof.
  apply downloadPhoto_keeps_existing_files.
  - reflexivity.
  - intros dl [= <-]. discriminate.
  - vm_compute. reflexivity.
Defined.

(** A move whose call is logged as successful: the call it was, and what it
    did to the files. *)
Lemma moveFile_last (source destination : string) (ov : option bool)
    (w : World) (s d : string) (ov' : option bool) :
  last (trace (snd (moveFile source destination ov w)))
    = Some (MoveFile s d ov' true) →
  s = source ∧ d = destination ∧ ov' = ov
  ∧ ∃ f, fs w !! source = Some f
         ∧ moveFile source destination ov w =
           (Normal tt,
            {| fs := <[destination := f]> (delete source (fs w));
               trace := trace w ++ [MoveFile source destination ov true] |}).
Proof.
  unfold moveFile. destruct (_ && _).
  { cbn [snd log trace]. rewrite last_snoc. discriminate. }
  destruct (fs w !! source) as [f|].
  - cbn [snd trace]. rewrite last_snoc. intros [= <- <- <-].
    repeat split. now exists f.
  - cbn [snd log trace]. rewrite last_snoc. discriminate.
Qed.

Lemma moveFile_normal (source destination : string) (ov : option bool)
    (w w' : World) :
  moveFile source destination ov w = (Normal tt, w') →
  last (trace w') = Some (MoveFile source destination ov true)
  ∧ ∃ f, fs w !! source = Some f ∧ fs w' !! destination = Some f.
Proof.
  unfold moveFile. destruct (_ && _); [discriminate|].
  destruct (fs w !! source) as [f|]; [|discriminate].
  intros [= <-]. cbn [trace fs]. rewrite last_snoc. split; [reflexivity|].
  exists f. now rewrite lookup_insert_eq.
Qed.

(** X9. When the last event of [downloadPhoto] is a move that succeeded, the
    call returned, the move was from the path of the page's download to the
    destination that the placement policy gives for some year and month, and
    the files show it: the destination holds the asset, as downloaded or with
    the tag written by [exiftool.write], and the temporary path is gone. *)
Theorem downloadPhoto_places_asset (E : Engine) (page : PhotoPage)
    (o : DownloadOptions) (w : World) (s d : string) (ov : option bool) :
  let r := downloadPhoto E page o w in
  last (trace (snd r)) = Some (MoveFile s d ov true) →
  fst r = Normal tt
  ∧ ∃ dl f y m,
      download page = Some dl ∧ dl_path dl = Some s
      ∧ d = destDir (o_photoDirectory o)
              (default false (o_flatDirectoryStructure o)) y m
              (dl_suggestedFilename dl)
      ∧ fs (snd r) !! d = Some f
      ∧ (f = dl_file dl ∨ ∃ date, exif_write E (dl_file dl) date = Some f)
      ∧ (s ≠ d → fs (snd r) !! s = None).
Proof.
  intros r. subst r. unfold downloadPhoto, bind.
  destruct (download page) as [dl|] eqn:Hd.
  2:{ unfold shiftD, bind, emit, throw. rewrite Hd. cbn [snd log trace].
      rewrite last_snoc. discriminate. }
  rewrite (shiftD_eq page dl w Hd).
  destruct (dl_path dl) as [tempPath|] eqn:Hp.
  2:{ cbn [truthy_str negb process_exit snd log trace].
      rewrite last_snoc. discriminate. }
  destruct (negb (truthy_str (Some tempPath))).
  { cbn [process_exit snd log trace]. rewrite last_snoc. discriminate. }
  cbn [default from_option id].
  set (w1 := {| fs := _; trace := _ |}).
  assert (Hf1 : fs w1 !! tempPath = Some (dl_file dl))
    by apply lookup_insert_eq.
  destruct (capture_date_outcome E page (default false (o_writeScrapedExif o))
              tempPath w1 (dl_file dl) Hf1) as (Hlast & f & Hf2 & Hor).
  destruct (capture_date _ _ _ _ w1) as [[[y m]| |] w2]; cbn [snd] in *;
    [|intros H; now apply Hlast in H..].
  set (dest := destDir _ _ _ _ _). unfold try_catch, ret.
  intros Hm.
  assert (Hm' : last (trace (snd (moveFile tempPath dest
                                    (Some (default false (o_overwrite o))) w2)))
                = Some (MoveFile s d ov true)).
  { revert Hm. now destruct (moveFile tempPath dest _ w2) as [[[]| |] w3]. }
  clear Hm. apply moveFile_last in Hm' as (-> & -> & -> & f' & Hf' & ->).
  cbn [fst snd fs]. split; [reflexivity|].
  exists dl, f, y, m. rewrite Hf2 in Hf'. injection Hf' as <-.
  split; [reflexivity|]. split; [exact Hp|]. split; [reflexivity|].
  split; [apply lookup_insert_eq|]. split; [exact Hor|].
  intros Hne. rewrite lookup_insert_ne by congruence. apply lookup_delete_eq.
Qed.

(** X9, at the first photo of the reference library. *)
Lemma downloadPhoto_places_asset_first :
  let r := downloadPhoto engine photoA (first_options (options false None))
             (init ∅) in
  fst r = Normal tt
  ∧ ∃ dl f y m,
      download photoA = Some dl ∧ dl_path dl = Some "/tmp/dl/a"
      ∧ "download/2020/1/IMG_0001.jpg"
        = destDir "./download" false y m (dl_suggestedFilename dl)
      ∧ fs (snd r) !! "download/2020/1/IMG_0001.jpg" = Some f
      ∧ (f = dl_file dl ∨ ∃ date, exif_write engine (dl_file dl) date = Some f)
      ∧ ("/tmp/dl/a" ≠ "download/2020/1/IMG_0001.jpg" →
         fs (snd r) !! "/tmp/dl/a" = None).
Proof.
  apply (downloadPhoto_places_asset engine photoA
           (first_options (options false None)) (init ∅)
           "/tmp/dl/a" "download/2020/1/IMG_0001.jpg" (Some true)).
  vm_compute. reflexivity.
Defined.

(** ** The legacy variant: the name of the second attempt *)

Lemma ext_run_dot (a b : string) : Legacy.ext_run (a +:+ String "." b) = false.
Proof.
  induction a as [|c a IH].
  - change ("" +:+ String "." b) with (String "." b).
    cbn [Legacy.ext_run]. now destruct b.
  - change (String c a +:+ String "." b) with (String c (a +:+ String "." b)).
    cbn [Legacy.ext_run]. rewrite IH.
    destruct (a +:+ String "." b) eqn:Hx; [now destruct a | apply andb_false_r].
Qed.

(** X10. The name of the second attempt: when what follows the last dot of
    the suggested name is a non-empty run of letters, digits, underscores and
    hyphens, [_<randomNumber>] is put before that dot and nothing else
    changes, whatever dots the rest of the name holds. *)
Theorem rename_before_extension (r : Z) (stem ext : string) :
  Legacy.ext_run ext = true →
  Legacy.rename r (stem +:+ "." +:+ ext)
  = stem +:+ "_" +:+ pretty r +:+ "." +:+ ext.
Proof.
  intros He. induction stem as [|c stem IH].
  - change (Legacy.rename r (String "." ext)
            = "_" +:+ pretty r +:+ String "." ext).
    cbn [Legacy.rename]. now rewrite He.
  - change (Legacy.rename r (String c (stem +:+ String "." ext))
            = String c (stem +:+ "_" +:+ pretty r +:+ "." +:+ ext)).
    cbn [Legacy.rename]. rewrite ext_run_dot, andb_false_r. cbn [andb].
    now rewrite <- IH.
Qed.

(** X10, at a name with two dots. *)
Lemma rename_before_extension_two_dots :
  Legacy.rename 424242 "IMG.0001.jpg" = "IMG.0001_424242.jpg".
Proof.
  apply (rename_before_extension 424242 "IMG.0001" "jpg"). reflexivity.
Defined.

Lemma rename_unchanged (r : Z) (name : string) :
  has_extension name = false → Legacy.rename r name = name.
Proof.
  induction name as [|c name IH]; [reflexivity|].
  cbn [has_extension Legacy.rename]. intros H.
  apply orb_false_iff in H as [-> H]. now rewrite IH.
Qed.

Lemma rename_longer (r : Z) (name : string) :
  has_extension name = true →
  (String.length name < String.length (Legacy.rename r name))%nat.
Proof.
  induction name as [|c name IH]; [discriminate|].
  cbn [has_extension Legacy.rename].
  destruct (Ascii.eqb c "." && Legacy.ext_run name).
  - intros _. rewrite !length_append. cbn [String.length]. lia.
  - cbn [orb String.length]. intros H. apply IH in H. lia.
Qed.

(** X11. The name of the second attempt differs from the suggested name
    exactly when the pattern for the extension matches: a name without a dot,
    or with anything but letters, digits, underscores and hyphens after each
    of its dots, is tried again unchanged. *)
Theorem rename_fixed_points (r : Z) (name : string) :
  Legacy.rename r name = name ↔ has_extension name = false.
Proof.
  split; [|apply rename_unchanged].
  intros H. destruct (has_extension name) eqn:Hx; [|reflexivity].
  apply (rename_longer r) in Hx. rewrite H in Hx. lia.
Qed.

(** ** The legacy variant: how [downloadPhoto] ends *)

Lemma shiftD_never_exits (page : PhotoPage) : never_exits (shiftD page).
Proof.
  intros w code. unfold shiftD, bind, emit, throw.
  now destruct (download page).
Qed.

Lemma exiftool_write_never_exits (E : Engine) (p : string) (d : JsDate) :
  never_exits (exiftool_write E p d).
Proof.
  intros w code. unfold exiftool_write, bind, emit. cbn [log fs].
  destruct (fs w !! p) as [f|]; [|discriminate].
  now destruct (exif_write E f d).
Qed.

Lemma capture_date_never_exits (E : Engine) (page : PhotoPage) (wse : bool)
    (tempPath : string) : never_exits (capture_date E page wse tempPath).
Proof.
  intros w code.
  unfold capture_date, exiftool_read, request_html, bind, emit, ret.
  cbn [log fs trace].
  destruct (fs w !! tempPath) as [f|]; [|discriminate].
  destruct (_ && _); [|discriminate].
  destruct (truthy_str _); [|discriminate].
  destruct wse; [|discriminate].
  match goal with
  | |- context [exiftool_write E tempPath ?d ?w0] =>
      pose proof (exiftool_write_never_exits E tempPath d w0) as Hw;
      destruct (exiftool_write E tempPath d w0) as [[[]| |] w3]
  end; [discriminate | now destruct (Hw code0) | discriminate].
Qed.

Lemma moveFile_never_exits (source destination : string) (ov : option bool) :
  never_exits (moveFile source destination ov).
Proof.
  intros w code. unfold moveFile. destruct (_ && _); [discriminate|].
  now destruct (fs w !! source).
Qed.

(** X12. The legacy [downloadPhoto] never ends the process, and it returns
    only after a move that succeeded, the first one or the one under the new
    name: its last event is then that move, and the destination of that move
    holds a file. A collision that the second attempt does not resolve rejects
    the call instead. *)
Theorem legacy_downloadPhoto_returns_after_move (E : Engine)
    (page : PhotoPage) (o : DownloadOptions) :
  never_exits (Legacy.downloadPhoto E page o)
  ∧ ∀ w, fst (Legacy.downloadPhoto E page o w) = Normal tt →
         ∃ s d ov f,
           last (trace (snd (Legacy.downloadPhoto E page o w)))
             = Some (MoveFile s d ov true)
           ∧ fs (snd (Legacy.downloadPhoto E page o w)) !! d = Some f.
Proof.
  split.
  - intros w code. unfold Legacy.downloadPhoto, bind.
    pose proof (shiftD_never_exits page w) as H1.
    destruct (shiftD page w) as [[dl| |] w1]; cbn [fst] in *;
      [|now destruct (H1 code0) | discriminate].
    rewrite capture_date_variants.
    pose proof (capture_date_never_exits E page
                  (default false (o_writeScrapedExif o))
                  (default "" (dl_path dl)) w1) as H2.
    destruct (capture_date _ _ _ _ w1) as [[[y m]| |] w2]; cbn [fst] in *;
      [|now destruct (H2 code0) | discriminate].
    unfold try_catch.
    match goal with
    | |- context [moveFile ?s ?d ?ov w2] =>
        pose proof (moveFile_never_exits s d ov w2) as H3;
        destruct (moveFile s d ov w2) as [[[]| |] w3]
    end; cbn [fst] in *; [discriminate | now destruct (H3 code0) |].
    apply moveFile_never_exits.
  - intros w. unfold Legacy.downloadPhoto, bind.
    destruct (shiftD page w) as [[dl| |] w1]; [|discriminate..].
    destruct (Legacy.capture_date _ _ _ _ w1) as [[[y m]| |] w2];
      [|discriminate..].
    unfold try_catch.
    match goal with
    | |- context [moveFile ?s ?d ?ov w2] =>
        destruct (moveFile s d ov w2) as [[[]| |] w3] eqn:H3
    end; [|discriminate|].
    + intros _. apply moveFile_normal in H3 as (Hl & f & _ & Hf).
      cbn [snd]. eauto 6.
    + match goal with
      | |- context [moveFile ?s ?d ?ov w3] =>
          destruct (moveFile s d ov w3) as [[[]| |] w4] eqn:H4
      end; [|discriminate..].
      intros _. apply moveFile_normal in H4 as (Hl & f & _ & Hf).
      cbn [snd]. eauto 6.
Qed.

(** X13. The legacy variant at a collision on a name without an extension:
    the second attempt goes to the same name, without [overwrite], which
    [moveFile] takes as [overwrite: true]. When the directory is written so
    that the template of the second attempt and the joined destination of
    the first are the same path, the file that was there is replaced by the
    incoming asset, although the call asked for no overwriting. *)
Theorem legacy_collision_without_extension (E : Engine) (page : PhotoPage)
    (o : DownloadOptions) (w w1 : World) (dl : Download) (tempPath : string)
    (y m : JsNum) (existing : File) :
  download page = Some dl → dl_path dl = Some tempPath →
  default false (o_overwrite o) = false →
  default false (o_flatDirectoryStructure o) = false →
  has_extension (dl_suggestedFilename dl) = false →
  let wse := default false (o_writeScrapedExif o) in
  let dest := path.join [o_photoDirectory o; js_template y; js_template m;
                         dl_suggestedFilename dl] in
  o_photoDirectory o +:+ "/" +:+ js_template y +:+ "/" +:+ js_template m
    +:+ "/" +:+ dl_suggestedFilename dl = dest →
  Legacy.capture_date E page wse tempPath (snd (shiftD page w))
    = (Normal (y, m), w1) →
  fs w1 !! dest = Some existing →
  ∃ f, fs w1 !! tempPath = Some f
       ∧ (f = dl_file dl ∨ ∃ date, exif_write E (dl_file dl) date = Some f)
       ∧ Legacy.downloadPhoto E page o w =
         (Normal tt,
          {| fs := <[dest := f]> (delete tempPath (fs w1));
             trace := trace w1 ++ [MoveFile tempPath dest (Some false) false;
                                   MoveFile tempPath dest None true] |}).
Proof.
  intros Hd Hp Hov Hflat Hext wse dest Hsame Hc Hex.
  rewrite capture_date_variants in Hc.
  assert (Hf1 : fs (snd (shiftD page w)) !! tempPath = Some (dl_file dl)).
  { rewrite (shiftD_eq page dl w Hd), Hp. apply lookup_insert_eq. }
  destruct (capture_date_outcome E page wse tempPath _ _ Hf1)
    as (_ & f & Hf & Hor).
  rewrite Hc in Hf. cbn [snd] in Hf.
  exists f. split; [exact Hf|]. split; [exact Hor|].
  unfold Legacy.downloadPhoto, bind.
  rewrite (shiftD_eq page dl w Hd) in Hc |- *. cbn [snd] in Hc.
  rewrite Hp in Hc |- *. cbn [default from_option id]. fold wse.
  rewrite capture_date_variants, Hc.
  rewrite Hov, Hflat. unfold destDir. fold dest.
  rewrite (rename_unchanged _ _ Hext), Hsame.
  unfold try_catch. unfold moveFile at 1, pathExists.
  cbn [default from_option id negb andb]. rewrite Hex.
  unfold moveFile. cbn [default from_option id negb andb log fs trace].
  rewrite Hf. now rewrite <- app_assoc.
Qed.

(** ** A caption that is no date *)

(** X14. No fallback for a caption that does not read as a date: when the
    embedded metadata gives the sentinel, the markup carries a caption and
    [new Date] makes an invalid date of its text, the one call of [moveFile]
    is for the directory [NaN/NaN] of the photo directory, not for [1970/1]
    (here without the writing of the tag). When [overwrite] is on or that path
    is free, the asset ends up there and leaves its temporary path; otherwise
    the move is rejected and the asset stays at its temporary path. In both
    cases the call returns. *)
Theorem downloadPhoto_unreadable_caption (E : Engine) (page : PhotoPage)
    (o : DownloadOptions) (w : World) (dl : Download) (tempPath t : string) :
  download page = Some dl → dl_path dl = Some tempPath → tempPath ≠ "" →
  js_seq (embedded_year (DateTimeOriginal (dl_file dl))) 1970
  && js_seq (embedded_month (DateTimeOriginal (dl_file dl))) 1 = true →
  aria_label_exec (html page) = Some t → new_Date E t = InvalidDate →
  default false (o_writeScrapedExif o) = false →
  default false (o_flatDirectoryStructure o) = false →
  let dest := path.join [o_photoDirectory o; "NaN"; "NaN";
                         dl_suggestedFilename dl] in
  let overwrite := default false (o_overwrite o) in
  let downloaded := <[tempPath := dl_file dl]> (fs w) in
  let ok := overwrite || negb (pathExists dest downloaded) in
  downloadPhoto E page o w =
    (Normal tt,
     {| fs := if ok then <[dest := dl_file dl]> (delete tempPath downloaded)
              else downloaded;
        trace := trace w ++ [KeyDown "Shift"; KeyPress "KeyD";
                             ExifRead tempPath; RequestGet (url page);
                             MoveFile tempPath dest (Some overwrite) ok] |}).
Proof.
  intros Hd Hp Hne Hs Hx Hdate Hwse Hflat dest overwrite downloaded ok.
  unfold downloadPhoto, bind. rewrite (shiftD_eq page dl w Hd), Hp.
  assert (Ht : truthy_str (Some tempPath) = true).
  { cbn. now apply negb_true_iff, String.eqb_neq. }
  rewrite Ht. cbn [negb default from_option id]. fold downloaded.
  set (w1 := {| fs := downloaded; trace := _ |}).
  assert (Hf1 : fs w1 !! tempPath = Some (dl_file dl))
    by apply lookup_insert_eq.
  rewrite (capture_date_eq E page _ tempPath w1 _ Hf1). cbv zeta.
  rewrite Hs, Hx, Hwse.
  assert (Ht' : truthy_str (Some t) = true).
  { cbn. apply negb_true_iff, String.eqb_neq.
    now apply (aria_label_exec_captured (html page)). }
  rewrite Ht'. cbn [default from_option id]. rewrite Hdate.
  unfold bind at 1, ret at 1 2. cbn [getFullYear getMonth js_succ].
  rewrite Hflat. unfold destDir. cbn [js_template]. fold dest overwrite.
  assert (Hf2 : downloaded !! tempPath = Some (dl_file dl))
    by apply lookup_insert_eq.
  unfold try_catch, moveFile. cbn [default from_option id log fs trace w1].
  rewrite Hf2. subst ok.
  destruct overwrite, (pathExists dest downloaded); cbn [negb andb orb];
    unfold ret, log; cbn [fs trace w1]; now rewrite <- !app_assoc.
Qed.

(** ** The end of the loop *)

(** X15. When the loop returns, the page it started from is the newest photo
    and nothing has happened, or the last thing it did was to write the
    checkpoint, and the checkpoint file holds the URL of a page that the
    browser went through and that canonicalises to the newest photo. *)
Theorem loop_completes_at_latest (E : Engine) (o : Options)
    (latestPhoto : string) (page : PhotoPage) (states : list PhotoPage)
    (w w' : World) :
  loop E o latestPhoto page states w = (Normal tt, w') →
  (clean (url page) = clean latestPhoto ∧ w' = w)
  ∨ ∃ p, p ∈ states ∧ clean (url p) = clean latestPhoto
         ∧ fs w' !! lastdone (photoDirectory o)
           = Some {| bytes := url p; DateTimeOriginal := None |}
         ∧ last (trace w')
           = Some (WriteFile (lastdone (photoDirectory o)) (url p)).
Proof.
  generalize (Nat.le_refl (length states)).
  generalize (length states) at 2 as n. intros n. revert states page w w'.
  induction n as [|n IH]; intros states page w w' Hn; rewrite loop_eq.
  all: destruct (String.eqb_spec (clean (url page)) (clean latestPhoto)) as [He|He];
    [intros [= <-]; now left|].
  all: unfold bind at 1; unfold evaluate_click, click_previous.
  all: destruct (isVisible (prev_arrows page)); cbn [negb];
    [|discriminate].
  all: cbn [bind emit ret process_exit negb fst snd].
  all: unfold bind at 1 2; cbn [emit ret negb].
  all: destruct (waitForURL (url page) states) as [[p rest]|] eqn:Hw;
    [|discriminate].
  - apply waitForURL_Some in Hw as (Hw & _). lia.
  - apply waitForURL_Some in Hw as (Hw & Hp & Hrest).
    destruct (downloadPhoto E p (loop_options o) (log w [Click 0%nat]))
      as [[[]| |] w2]; [|discriminate..].
    rewrite saveProgress_eq.
    destruct (String.eqb (photoDirectory o) ""); [discriminate|].
    intros Hl. right.
    apply IH in Hl; [|lia]. destruct Hl as [[Hc ->] | (p' & Hp' & Hc & Hf & Ht)].
    + exists p. cbn [fs trace]. rewrite lookup_insert_eq, last_snoc.
      now repeat split.
    + exists p'. repeat split; auto.
Qed.

(** ** How a run ends *)

Lemma unclosed_app (a b : list Event) :
  unclosed (a ++ b) = unclosed a && unclosed b.
Proof. apply forallb_app. Qed.

Lemma unclosing_ret {A} (a : A) : unclosing (ret a).
Proof.
  intros w. exists []. split; [symmetry; apply app_nil_r|].
  split; [reflexivity | discriminate].
Qed.

Lemma unclosing_throw {A} (e : Error) : unclosing (@throw A e).
Proof.
  intros w. exists []. split; [symmetry; apply app_nil_r|].
  split; [reflexivity | discriminate].
Qed.

Lemma unclosing_emit (e : Event) : is_close e = false → unclosing (emit e).
Proof.
  intros He w. exists [e]. split; [reflexivity|].
  split; [cbn; now rewrite He | discriminate].
Qed.

Lemma unclosing_process_exit {A} : unclosing (@process_exit A 1).
Proof.
  intros w. exists [ProcessExit 1]. split; [reflexivity|].
  split; [reflexivity|]. intros code [= <-]. split; [reflexivity|].
  now exists [].
Qed.

Lemma unclosing_bind {A B} (c : Async A) (k : A → Async B) :
  unclosing c → (∀ a, unclosing (k a)) → unclosing (bind c k).
Proof.
  intros Hc Hk w. unfold bind. destruct (Hc w) as (q1 & H1 & Q1 & X1).
  destruct (c w) as [[a| |] w1]; cbn [fst snd] in *.
  - destruct (Hk a w1) as (q2 & H2 & Q2 & X2). exists (q1 ++ q2).
    rewrite H2, H1, unclosed_app, Q1, Q2, app_assoc.
    split; [reflexivity|]. split; [reflexivity|].
    intros code Hx. destruct (X2 code Hx) as (-> & q' & ->).
    split; [reflexivity|]. exists (q1 ++ q'). now rewrite app_assoc.
  - exists q1. split; [assumption|]. split; [assumption|].
    intros code' [= <-]. now apply X1.
  - exists q1. split; [assumption|]. split; [assumption | discriminate].
Qed.

Lemma unclosing_try_catch {A} (c : Async A) (h : Error → Async A) :
  unclosing c → (∀ e, unclosing (h e)) → unclosing (try_catch c h).
Proof.
  intros Hc Hh w. unfold try_catch. destruct (Hc w) as (q1 & H1 & Q1 & X1).
  destruct (c w) as [[a| |e] w1]; cbn [fst snd] in *.
  - exists q1. split; [assumption|]. split; [assumption | discriminate].
  - exists q1. split; [assumption|]. split; [assumption | exact X1].
  - destruct (Hh e w1) as (q2 & H2 & Q2 & X2). exists (q1 ++ q2).
    rewrite H2, H1, unclosed_app, Q1, Q2, app_assoc.
    split; [reflexivity|]. split; [reflexivity|].
    intros code Hx. destruct (X2 code Hx) as (-> & q' & ->).
    split; [reflexivity|]. exists (q1 ++ q'). now rewrite app_assoc.
Qed.

(** A step that leaves the trace as it is and does not end the process. *)
Lemma unclosing_pure {A} (c : Async A) :
  (∀ w, trace (snd (c w)) = trace w) → never_exits c → unclosing c.
Proof.
  intros H Hn w. exists []. rewrite H.
  split; [symmetry; apply app_nil_r|]. split; [reflexivity|].
  intros code Hx. now destruct (Hn w code).
Qed.

Lemma unclosing_shiftD (page : PhotoPage) : unclosing (shiftD page).
Proof.
  unfold shiftD. apply unclosing_bind; [now apply unclosing_emit|]. intros _.
  apply unclosing_bind; [now apply unclosing_emit|]. intros _.
  destruct (download page); [|apply unclosing_throw].
  apply unclosing_pure; [reflexivity | discriminate].
Qed.

Lemma unclosing_exiftool_write (E : Engine) (p : string) (d : JsDate) :
  unclosing (exiftool_write E p d).
Proof.
  unfold exiftool_write. apply unclosing_bind; [now apply unclosing_emit|].
  intros _. apply unclosing_pure.
  - intros w. destruct (fs w !! p) as [f|]; [|reflexivity].
    now destruct (exif_write E f d).
  - intros w code. destruct (fs w !! p) as [f|]; [|discriminate].
    now destruct (exif_write E f d).
Qed.

Lemma unclosing_capture_date (E : Engine) (page : PhotoPage) (wse : bool)
    (tempPath : string) : unclosing (capture_date E page wse tempPath).
Proof.
  unfold capture_date. apply unclosing_bind.
  { unfold exiftool_read. apply unclosing_bind; [now apply unclosing_emit|].
    intros _. apply unclosing_pure.
    - intros w. now destruct (fs w !! tempPath).
    - intros w code. now destruct (fs w !! tempPath). }
  intros metadata. destruct (_ && _); [|apply unclosing_ret].
  apply unclosing_bind.
  { unfold request_html. apply unclosing_bind; [now apply unclosing_emit|].
    intros _. apply unclosing_ret. }
  intros html. destruct (truthy_str _); [|apply unclosing_ret].
  apply unclosing_bind; [|intros _; apply unclosing_ret].
  destruct wse; [apply unclosing_exiftool_write | apply unclosing_ret].
Qed.

Lemma unclosing_moveFile (source destination : string) (ov : option bool) :
  unclosing (moveFile source destination ov).
Proof.
  intros w. destruct (moveFile_trace source destination ov w) as (ok & H).
  exists [MoveFile source destination ov ok].
  split; [exact H|]. split; [reflexivity|].
  intros code Hx. now destruct (moveFile_never_exits source destination ov w code).
Qed.

Lemma unclosing_downloadPhoto (E : Engine) (page : PhotoPage)
    (o : DownloadOptions) : unclosing (downloadPhoto E page o).
Proof.
  unfold downloadPhoto. apply unclosing_bind; [apply unclosing_shiftD|].
  intros dl. destruct (negb _); [apply unclosing_process_exit|].
  apply unclosing_bind; [apply unclosing_capture_date|]. intros [y m].
  apply unclosing_try_catch; [apply unclosing_moveFile|].
  intros _. apply unclosing_ret.
Qed.

Lemma unclosing_saveProgress (dir u : string) : unclosing (saveProgress dir u).
Proof.
  intros w. rewrite saveProgress_eq. destruct (String.eqb dir "").
  - exists []. cbn [fst snd]. rewrite app_nil_r.
    split; [reflexivity|]. split; [reflexivity | discriminate].
  - exists [WriteFile (lastdone dir) u].
    split; [reflexivity|]. split; [reflexivity | discriminate].
Qed.

Lemma unclosing_loop (E : Engine) (o : Options) (latestPhoto : string)
    (n : nat) :
  ∀ states, (length states ≤ n)%nat →
  ∀ page, unclosing (loop E o latestPhoto page states).
Proof.
  induction n as [|n IH]; intros states Hn page.
  all: assert (Heq : ∀ w, loop E o latestPhoto page states w = _ w)
         by (intros w; apply loop_eq).
  all: intros w; rewrite Heq; revert w.
  all: destruct (String.eqb _ _); [apply unclosing_ret|].
  all: apply unclosing_bind.
  1,3: unfold evaluate_click; destruct (click_previous _) as [clicked [i|]];
       [apply unclosing_bind; [now apply unclosing_emit|];
        intros _; apply unclosing_ret
       |apply unclosing_ret].
  all: intros clicked; apply unclosing_bind;
    [destruct (negb clicked); [apply unclosing_process_exit | apply unclosing_ret]|].
  all: intros _; destruct (waitForURL (url page) states) as [[p rest]|] eqn:Hw;
    [|apply unclosing_throw].
  - apply waitForURL_Some in Hw as (Hw & _). lia.
  - apply waitForURL_Some in Hw as (Hw & _).
    apply unclosing_bind; [apply unclosing_downloadPhoto|]. intros _.
    apply unclosing_bind; [apply unclosing_saveProgress|]. intros _.
    apply IH. lia.
Qed.

Lemma bind_head {A B} (c : Async A) (k : A → Async B) (e : Event)
    (w : World) :
  (∃ q, trace (snd (c w)) = trace w ++ e :: q) → (∀ a, unclosing (k a)) →
  ∃ q, trace (snd (bind c k w)) = trace w ++ e :: q.
Proof.
  intros [q H] Hk. unfold bind.
  destruct (c w) as [[a| |] w1]; cbn [snd] in *; [|now exists q..].
  destruct (Hk a w1) as (q2 & H2 & _). exists (q ++ q2).
  now rewrite H2, H, <- app_assoc.
Qed.

(** The first event of [downloadPhoto] is the key press that triggers the
    download. *)
Lemma downloadPhoto_head (E : Engine) (page : PhotoPage) (o : DownloadOptions)
    (w : World) :
  ∃ q, trace (snd (downloadPhoto E page o w)) = trace w ++ KeyDown "Shift" :: q.
Proof.
  unfold downloadPhoto. apply bind_head.
  - unfold shiftD. apply bind_head; [now exists []|]. intros _.
    apply unclosing_bind; [now apply unclosing_emit|]. intros _.
    destruct (download page); [|apply unclosing_throw].
    apply unclosing_pure; [reflexivity | discriminate].
  - intros dl. destruct (negb _); [apply unclosing_process_exit|].
    apply unclosing_bind; [apply unclosing_capture_date|]. intros [y m].
    apply unclosing_try_catch; [apply unclosing_moveFile|].
    intros _. apply unclosing_ret.
Qed.

Lemma unclosed_snoc_exit (q q' : list Event) (code : Z) :
  unclosed q = true → q = q' ++ [ProcessExit code] → unclosed q' = true.
Proof.
  intros Hq ->. rewrite unclosed_app in Hq. now apply andb_prop in Hq as [Hq _].
Qed.

(** The session is not authenticated or shows no newest photo: both resources
    are closed before the exit. *)
Lemma backup_no_latest (E : Engine) (B : Browser) (o : Options)
    (startLink : string) (w : World) :
  URL_ok E startLink = true → home B = mainGooglePhotosUrl →
  truthy_str (activeElement_href B) = false →
  backup E B o startLink w =
    (Exit 1, log w [Launch (sessionDirectory o) (headless o);
                    Goto mainGooglePhotosUrl; KeyPress "ArrowRight";
                    BrowserClose; ExiftoolEnd; ProcessExit 1]).
Proof.
  intros Hu Hh Ha. unfold backup, getLatestPhoto.
  rewrite Hu, Hh, String.eqb_refl. cbn [negb].
  unfold cleanup, bind, emit, ret, process_exit. rewrite Ha. cbn [negb].
  now rewrite !log_log.
Qed.

Lemma backup_invalid (E : Engine) (B : Browser) (o : Options)
    (startLink : string) (w : World) :
  URL_ok E startLink = false →
  backup E B o startLink w = (Throw (InvalidURL startLink), w).
Proof. intros Hu. unfold backup, bind, throw. now rewrite Hu. Qed.

(** How [backup] ends, on the events it adds. *)
Lemma backup_endings (E : Engine) (B : Browser) (o : Options)
    (startLink : string) (w : World) :
  ∃ t, trace (snd (backup E B o startLink w)) = trace w ++ t
       ∧ ending (fst (backup E B o startLink w)) t
       ∧ t ≠ [ProcessExit 1].
Proof.
  destruct (URL_ok E startLink) eqn:Hu.
  2:{ rewrite (backup_invalid E B o startLink w Hu). exists [].
      cbn [fst snd ending]. now rewrite app_nil_r. }
  destruct (String.eqb_spec (home B) mainGooglePhotosUrl) as [Hh|Hh].
  2:{ rewrite (backup_redirected E B o startLink w Hu Hh).
      eexists. cbn [fst snd log trace ending]. split; [reflexivity|].
      split; [|discriminate]. split; [reflexivity|].
      exists [Launch (sessionDirectory o) (headless o);
              Goto mainGooglePhotosUrl; BrowserClose; ExiftoolEnd].
      split; [reflexivity|]. split.
      - rewrite !elem_of_cons, elem_of_nil. intros [H|[H|[H|[H|[]]]]]; discriminate.
      - intros _. right.
        now exists [Launch (sessionDirectory o) (headless o);
                    Goto mainGooglePhotosUrl]. }
  destruct (truthy_str (activeElement_href B)) eqn:Ha.
  2:{ rewrite (backup_no_latest E B o startLink w Hu Hh Ha).
      eexists. cbn [fst snd log trace ending]. split; [reflexivity|].
      split; [|discriminate]. split; [reflexivity|].
      exists [Launch (sessionDirectory o) (headless o);
              Goto mainGooglePhotosUrl; KeyPress "ArrowRight";
              BrowserClose; ExiftoolEnd].
      split; [reflexivity|]. split.
      - rewrite !elem_of_cons, elem_of_nil.
        intros [H|[H|[H|[H|[H|[]]]]]]; discriminate.
      - intros _. right.
        now exists [Launch (sessionDirectory o) (headless o);
                    Goto mainGooglePhotosUrl; KeyPress "ArrowRight"]. }
  destruct (activeElement_href B) as [latest|] eqn:Hl; [|discriminate].
  assert (Hne : latest ≠ "").
  { cbn in Ha. now apply negb_true_iff, String.eqb_neq in Ha. }
  rewrite (backup_authenticated E B o startLink latest w Hu Hh Hl Hne).
  cbv zeta. set (page := photoAt B (clean startLink)).
  set (opening := [Launch (sessionDirectory o) (headless o);
                   Goto mainGooglePhotosUrl; KeyPress "ArrowRight";
                   Goto (clean startLink)]).
  set (w3 := log w opening).
  rewrite bind_assoc.
  set (body := bind (downloadPhoto E page (first_options o))
                 (λ _, loop E o latest page (navigations B))).
  assert (Hbody : unclosing body).
  { apply unclosing_bind; [apply unclosing_downloadPhoto|]. intros _.
    now apply (unclosing_loop E o latest (length (navigations B))). }
  assert (Hhead : ∃ q, trace (snd (body w3)) = trace w3 ++ KeyDown "Shift" :: q).
  { apply bind_head; [apply downloadPhoto_head|]. intros _.
    now apply (unclosing_loop E o latest (length (navigations B))). }
  destruct (Hbody w3) as (q & Hq & Qq & Xq). destruct Hhead as (q0 & Hq0).
  assert (Hqq : q = KeyDown "Shift" :: q0).
  { rewrite Hq in Hq0. now apply app_inv_head in Hq0. }
  assert (Ho : unclosed opening = true) by reflexivity.
  unfold bind.
  destruct (body w3) as [[[]| |] w4]; cbn [fst snd] in *.
  - unfold cleanup, bind, emit. cbn [fst snd log trace].
    exists (opening ++ q ++ [BrowserClose; ExiftoolEnd]).
    rewrite Hq. subst w3. cbn [log trace ending].
    split; [now rewrite <- !app_assoc|]. split.
    + exists (opening ++ q). split; [now rewrite <- app_assoc|].
      now rewrite unclosed_app, Ho, Qq.
    + intros H. apply (f_equal (λ l, length l)) in H.
      rewrite !length_app in H. cbn in H. lia.
  - destruct (Xq code eq_refl) as (-> & q' & Hq').
    exists (opening ++ q). rewrite Hq. subst w3. cbn [log trace ending].
    split; [now rewrite <- app_assoc|]. split.
    + split; [reflexivity|]. exists (opening ++ q').
      rewrite Hq' at 1. split; [now rewrite <- app_assoc|]. split.
      * intros _. rewrite unclosed_app, Ho.
        now rewrite (unclosed_snoc_exit q q' 1 Qq Hq').
      * intros Hn. exfalso. apply Hn. apply elem_of_app. right.
        destruct q' as [|e q'']; [rewrite Hqq in Hq'; discriminate|].
        rewrite Hqq in Hq'. injection Hq' as <- _. left.
    + intros H. apply (f_equal (λ l, length l)) in H.
      rewrite !length_app in H. cbn in H. lia.
  - exists (opening ++ q). rewrite Hq. subst w3. cbn [log trace ending].
    split; [now rewrite <- app_assoc|]. split.
    + now rewrite unclosed_app, Ho, Qq.
    + intros H. apply (f_equal (λ l, length l)) in H.
      rewrite !length_app in H. cbn in H. lia.
Qed.

Lemma ending_seeded {A} (r : Completion A) (t : list Event) (p c : string) :
  ending r t → t ≠ [ProcessExit 1] → ending r (WriteFile p c :: t).
Proof.
  destruct r as [a|code|e]; cbn [ending].
  - intros (pre & -> & Hp) _. now exists (WriteFile p c :: pre).
  - intros (-> & pre & -> & Hk & Hn) Hne. split; [reflexivity|].
    exists (WriteFile p c :: pre). split; [reflexivity|]. split.
    + intros H. apply elem_of_cons in H as [H|H]; [discriminate|].
      cbn. now apply Hk.
    + intros H. right.
      destruct Hn as [-> | (pre' & ->)].
      * intros H'. apply H. now right.
      * now destruct Hne.
      * now exists (WriteFile p c :: pre').
  - intros H _. exact H.
Qed.

(** X16. How a run ends, whatever the session and the files. When [start]
    returns, the closing of the browser and of exiftool are the last two
    events and the only ones of their kind. When it ends the process, the code
    is 1 and the exit is the last event: before any download was triggered the
    two resources are closed directly before it (or nothing has happened at
    all, when there is neither a checkpoint nor a seed), and once a download
    was triggered nothing is closed. When it rejects, nothing is closed. *)
Theorem start_endings (E : Engine) (B : Browser) (o : Options) (w : World) :
  ∃ t, trace (snd (start E B o w)) = trace w ++ t
       ∧ ending (fst (start E B o w)) t.
Proof.
  rewrite start_eq. cbv zeta.
  destruct (fs w !! lastdone (photoDirectory o)) as [f|];
    [destruct (String.eqb (bytes f) "")|].
  2:{ destruct (backup_endings E B o (bytes f) w) as (t & Ht & He & _).
      now exists t. }
  all: destruct (initialPhotoUrl o) as [seed|];
    [destruct (String.eqb seed "");
     [|destruct (String.eqb (photoDirectory o) "")]|].
  all: lazymatch goal with
       | |- context [backup _ _ _ ?sl ?w1] =>
           destruct (backup_endings E B o sl w1) as (t & Ht & He & Hne);
           exists (WriteFile (lastdone (photoDirectory o)) sl :: t);
           cbn [trace] in Ht; rewrite Ht, <- app_assoc;
           split; [reflexivity | now apply ending_seeded]
       | |- context [Throw] =>
           exists []; cbn [fst snd ending]; now rewrite app_nil_r
       | _ =>
           exists [ProcessExit 1]; cbn [fst snd log trace ending];
           split; [reflexivity|]; split; [reflexivity|]; exists [];
           split; [reflexivity|];
           split; [now rewrite elem_of_nil | now left]
       end.
Qed.

(** ** A start link that is no URL *)

(** X17. The seed is stored before it is validated. With no usable
    checkpoint, a photo directory other than the empty path and a seed that
    [new URL] refuses, the run writes the seed to the checkpoint file and
    rejects before the browser is launched; and with that checkpoint in place
    every later run on the directory rejects the same way without doing
    anything, whatever seed and session it is given. *)
Theorem invalid_seed_persists (E : Engine) (B : Browser) (o : Options)
    (w : World) (seed : string) :
  let dir := photoDirectory o in
  dir ≠ "" →
  (fs w !! lastdone dir = None
   ∨ ∃ f, fs w !! lastdone dir = Some f ∧ bytes f = "") →
  initialPhotoUrl o = Some seed → seed ≠ "" → URL_ok E seed = false →
  let seeded :=
    {| fs := <[lastdone dir := {| bytes := seed; DateTimeOriginal := None |}]>
               (fs w);
       trace := trace w ++ [WriteFile (lastdone dir) seed] |} in
  start E B o w = (Throw (InvalidURL seed), seeded)
  ∧ ∀ B' o' w',
      photoDirectory o' = dir → fs w' = fs seeded →
      start E B' o' w' = (Throw (InvalidURL seed), w').
Proof.
  intros dir Hd Hm Hs Hne Hu seeded. split.
  - rewrite start_eq. cbv zeta. fold dir. rewrite Hs.
    apply String.eqb_neq in Hne, Hd. rewrite Hne, Hd.
    fold seeded. rewrite (backup_invalid E B o seed seeded Hu).
    destruct Hm as [-> | (f & -> & ->)]; reflexivity.
  - intros B' o' w' Hd' Hf.
    rewrite start_eq. cbv zeta. rewrite Hd', Hf. cbn [seeded fs].
    rewrite lookup_insert_eq. cbn [bytes].
    apply String.eqb_neq in Hne. rewrite Hne.
    now apply backup_invalid.
Qed.

(** ** The further properties at concrete inputs *)

(** X13, at a second photo named [IMG_0003] in a directory that holds a
    file of that name. *)
Lemma legacy_collision_without_extension_replaced :
  let w := init occupied in
  let w1 := snd (Legacy.capture_date engine photoF false "/tmp/dl/f"
                   (snd (shiftD photoF w))) in
  ∃ f, fs w1 !! "/tmp/dl/f" = Some f
       ∧ (f = jpeg "newer" 2020 1
          ∨ ∃ date, exif_write engine (jpeg "newer" 2020 1) date = Some f)
       ∧ Legacy.downloadPhoto engine photoF directory_only w =
         (Normal tt,
          {| fs := <["download/2020/1/IMG_0003" := f]>
                     (delete "/tmp/dl/f" (fs w1));
             trace := trace w1 ++
               [MoveFile "/tmp/dl/f" "download/2020/1/IMG_0003" (Some false)
                  false;
                MoveFile "/tmp/dl/f" "download/2020/1/IMG_0003" None true] |}).
Proof.
  intros w w1.
  apply (legacy_collision_without_extension engine photoF directory_only w w1
           {| dl_path := Some "/tmp/dl/f"; dl_suggestedFilename := "IMG_0003";
              dl_file := jpeg "newer" 2020 1 |}
           "/tmp/dl/f" (Num 2020) (Num 1) (jpeg "older" 2020 1));
    vm_compute; reflexivity.
Defined.

(** X14, at a page whose caption reads [Photo - Landscape], with the
    destination free. *)
Lemma downloadPhoto_unreadable_caption_landscape :
  downloadPhoto engine photoG directory_only (init ∅) =
    (Normal tt,
     {| fs := <["download/NaN/NaN/IMG_0006.jpg" := untagged]>
                (delete "/tmp/dl/g" (<["/tmp/dl/g" := untagged]> ∅));
        trace := [KeyDown "Shift"; KeyPress "KeyD"; ExifRead "/tmp/dl/g";
                  RequestGet urlA;
                  MoveFile "/tmp/dl/g" "download/NaN/NaN/IMG_0006.jpg"
                    (Some false) true] |}).
Proof.
  etransitivity.
  - apply (downloadPhoto_unreadable_caption engine photoG directory_only
             (init ∅)
             {| dl_path := Some "/tmp/dl/g";
                dl_suggestedFilename := "IMG_0006.jpg"; dl_file := untagged |}
             "/tmp/dl/g" "Landscape");
      try (vm_compute; reflexivity).
    discriminate.
  - vm_compute. reflexivity.
Defined.

(** X15, at the loop over the two photos of the reference library. *)
Lemma loop_completes_at_latest_two_photos :
  let o := options false None in
  let w' := snd (loop engine o urlB photoA [photoB] (init ∅)) in
  (clean (url photoA) = clean urlB ∧ w' = init ∅)
  ∨ ∃ p, p ∈ [photoB] ∧ clean (url p) = clean urlB
         ∧ fs w' !! lastdone (photoDirectory o)
           = Some {| bytes := url p; DateTimeOriginal := None |}
         ∧ last (trace w')
           = Some (WriteFile (lastdone (photoDirectory o)) (url p)).
Proof.
  intros o w'.
  apply (loop_completes_at_latest engine o urlB photoA [photoB] (init ∅) w').
  vm_compute. reflexivity.
Defined.

(** X17, at a seed without a scheme. *)
Lemma invalid_seed_persists_no_scheme :
  let o := options false (Some no_scheme) in
  let seeded :=
    {| fs := <[lastdone "./download" :=
                 {| bytes := no_scheme; DateTimeOriginal := None |}]> ∅;
       trace := [] ++ [WriteFile (lastdone "./download") no_scheme] |} in
  start engine (library photoA urlB [photoB]) o (init ∅)
    = (Throw (InvalidURL no_scheme), seeded)
  ∧ ∀ B' o' w',
      photoDirectory o' = "./download" → fs w' = fs seeded →
      start engine B' o' w' = (Throw (InvalidURL no_scheme), w').
Proof.
  apply (invalid_seed_persists engine (library photoA urlB [photoB])
           (options false (Some no_scheme)) (init ∅) no_scheme).
  - discriminate.
  - now left.
  - reflexivity.
  - discriminate.
  - reflexivity.
Defined.

(** X12, at a second photo whose name is taken: the legacy variant returns
    after the move under the new name. *)
Lemma legacy_downloadPhoto_returns_after_move_renamed :
  let r := Legacy.downloadPhoto engine photoB directory_only
             (init {[ "download/2020/1/IMG_0001.jpg" := jpeg "first" 2020 1 ]}) in
  ∃ s d ov f,
    last (trace (snd r)) = Some (MoveFile s d ov true)
    ∧ fs (snd r) !! d = Some f.
Proof.
  intros r.
  apply (proj2 (legacy_downloadPhoto_returns_after_move engine photoB
                  directory_only)).
  vm_compute. reflexivity.
Defined.
